(** * IniParser v1.2: a verified model of the tokenizer and the state-machine parser

    Shallow embedding of [src/IniParser.cpp].  A [std::string] is a Rocq
    [string] (a sequence of 8-bit characters), the token vector is a [list
    string], the two-level [std::map] is a [gmap string (gmap string string)],
    the [std::ifstream] is the sequence of characters still to be read together
    with its [eofbit] and [failbit], and a member function is a function from
    the object before the call to the object after it, or to the exception it
    throws.  The [int] variables of [parse] are integers of [Z]; they stay in
    the range of [int] as long as the token vector has fewer than 2^31 - 1
    elements. *)

From stdpp Require Import gmap strings list fin_maps sorting.
From Stdlib Require Import ZArith Ascii String DecimalString Lia.
From Equations Require Import Equations.

Open Scope string_scope.

(** ** Characters and string constants *)

Definition LF : ascii := "010"%char.
Definition TAB : ascii := "009"%char.
Definition CR : ascii := "013"%char.
Definition DQUOTE : ascii := "034"%char.

(** The one-character string [c]. *)
Definition str1 (c : ascii) : string := String c EmptyString.

(** The C++ literal ["\n"]. *)
Definition nl : string := str1 LF.

(** The C++ literal ["\0"]: converted to [std::string] from a [const char*],
    it stops at the first NUL character, so it is the empty string. *)
Definition NUL_literal : string := EmptyString.

(** ** [IniParser::reserved] *)

Definition reserved (c : ascii) : bool :=
  Ascii.eqb c "[" || Ascii.eqb c "]" || Ascii.eqb c "=" || Ascii.eqb c ";"
  || Ascii.eqb c LF.

(** ** [IniParser::trimWS] and the [std::string] functions it calls *)

Fixpoint mem_char (c : ascii) (set : string) : bool :=
  match set with
  | EmptyString => false
  | String d set' => Ascii.eqb c d || mem_char c set'
  end.

(** [str.find_first_not_of(set)]; [None] is [std::string::npos]. *)
Fixpoint find_first_not_of (set str : string) : option nat :=
  match str with
  | EmptyString => None
  | String c r =>
      if mem_char c set then option_map S (find_first_not_of set r) else Some 0
  end.

(** [str.find_last_not_of(set)]; [None] is [std::string::npos]. *)
Fixpoint find_last_not_of (set str : string) : option nat :=
  match str with
  | EmptyString => None
  | String c r =>
      match find_last_not_of set r with
      | Some j => Some (S j)
      | None => if mem_char c set then None else Some 0
      end
  end.

(** The set [" \t\n\r"]. *)
Definition whitespace : string :=
  String " " (String TAB (String LF (String CR EmptyString))).

Definition is_ws (c : ascii) : bool := mem_char c whitespace.

(** [str.substr(pos, len)] is [substring pos len str] for [pos <= size]. *)
Definition trimWS (str : string) : string :=
  match find_first_not_of whitespace str, find_last_not_of whitespace str with
  | Some first, Some last => substring first (last - first + 1) str
  | _, _ => ""
  end.

(** ** The input stream *)

(** [chars] is what is left to read.  [peek] at the end of the file sets
    [eofbit]; a failed [open] sets [failbit]. *)
Record ifstream : Type := mk_ifstream {
  chars : string;
  eofbit : bool;
  failbit : bool
}.

Definition closed_stream : ifstream :=
  {| chars := ""; eofbit := false; failbit := false |}.

(** [in.peek()]: the next character without consuming it, or [None] for
    [Traits::eof()], in which case [eofbit] is set. *)
Definition peek (s : ifstream) : option ascii * ifstream :=
  match chars s with
  | EmptyString => (None, {| chars := ""; eofbit := true; failbit := failbit s |})
  | String c _ => (Some c, s)
  end.

(** The conversion of the [int] that [peek] returns to [unsigned char]:
    [Traits::eof()] is -1 and becomes 255. *)
Definition to_uchar (x : option ascii) : ascii :=
  match x with
  | Some c => c
  | None => "255"%char
  end.

(** [in.get()], converted to the [char] that [t += in.get()] appends.  On a
    stream with nothing left it returns [Traits::eof()] and sets [eofbit] and
    [failbit]; [getToken] calls it only after [peek] has seen a character. *)
Definition get_char (s : ifstream) : ascii * ifstream :=
  match chars s with
  | EmptyString =>
      ("255"%char, {| chars := ""; eofbit := true; failbit := true |})
  | String c r =>
      (c, {| chars := r; eofbit := eofbit s; failbit := failbit s |})
  end.

(** The loop [while (!reserved(peeked) && !in.eof()) { t += in.get(); peeked =
    in.peek(); }] of [getToken], run on a stream that is not at its end:
    [peeked] is the first character of [cs].  When the characters run out the
    last [peek] has set [eofbit]. *)
Fixpoint accumulate (cs : string) (t : string) : string * (string * bool) :=
  match cs with
  | EmptyString => (t, ("", true))
  | String c r =>
      if reserved c then (t, (cs, false)) else accumulate r (t ++ str1 c)
  end.

(** ** [IniParser::getToken] *)

Definition getToken (s : ifstream) : string * ifstream :=
  let '(peeked, s1) := peek s in
  if eofbit s1 then (NUL_literal, s1)
  else
    let '(t, s2) :=
      if reserved (to_uchar peeked) then
        let '(c, s2) := get_char s1 in ("" ++ str1 c, s2)
      else
        let '(t, (rest, eof)) := accumulate (chars s1) "" in
        (t, {| chars := rest; eofbit := eof; failbit := failbit s1 |})
    in
    if String.eqb t nl then (t, s2) else (trimWS t, s2).

(** ** [IniParser::isIdent] *)

Definition isIdent (str : string) : bool :=
  match str with
  | String c EmptyString => negb (reserved c)
  | _ => true
  end.

(** ** The object *)

Record IniParser : Type := mk_IniParser {
  internal : gmap string (gmap string string);
  fileName : string;
  inp : ifstream;
  tokens : list string
}.

(** The constructor [IniParser(fileName)]. *)
Definition new_IniParser (name : string) : IniParser :=
  {| internal := ∅; fileName := name; inp := closed_stream; tokens := [] |}.

Definition set_internal (p : IniParser) (m : gmap string (gmap string string))
  : IniParser :=
  {| internal := m; fileName := fileName p; inp := inp p; tokens := tokens p |}.

Definition set_inp (p : IniParser) (s : ifstream) : IniParser :=
  {| internal := internal p; fileName := fileName p; inp := s; tokens := tokens p |}.

Definition set_tokens (p : IniParser) (ts : list string) : IniParser :=
  {| internal := internal p; fileName := fileName p; inp := inp p; tokens := ts |}.

(** [IniParser::clear]. *)
Definition clear (p : IniParser) : IniParser := set_internal p ∅.

(** [internal[section][key] = value]: [std::map::operator[]] creates the
    section when it is absent, then the key is inserted or overwritten. *)
Definition assign (m : gmap string (gmap string string))
    (section key value : string) : gmap string (gmap string string) :=
  <[section := <[key := value]> (default ∅ (m !! section))]> m.

(** [IniParser::operator[]]: a reference to the section, created empty when it
    is absent. *)
Definition operator_index (p : IniParser) (section : string)
  : gmap string string * IniParser :=
  let sec := default ∅ (internal p !! section) in
  (sec, set_internal p (<[section := sec]> (internal p))).

(** [config[section][key]] read as a value: the inner [std::map::operator[]]
    creates the key with the empty string when it is absent. *)
Definition get (p : IniParser) (section key : string) : string * IniParser :=
  let '(sec, p1) := operator_index p section in
  let v := default "" (sec !! key) in
  (v, set_internal p1 (<[section := <[key := v]> sec]> (internal p1))).

(** ** Exceptions and results *)

Inductive exn : Type :=
| FileNotFound
| SyntaxError (message : string)
| EOFReached
| ios_failure.

(** The result of a member function: it returns, or throws with the object in
    the state it had reached, or has undefined behaviour (here: indexing the
    token vector outside of its bounds). *)
Inductive result (A : Type) : Type :=
| Ret (a : A)
| Throw (e : exn) (p : IniParser)
| Undefined.
Arguments Ret {A} a.
Arguments Throw {A} e p.
Arguments Undefined {A}.

#[global] Instance result_ret : MRet result := fun A a => Ret a.

#[global] Instance result_bind : MBind result := fun A B k r =>
  match r with
  | Ret a => k a
  | Throw e p => Throw e p
  | Undefined => Undefined
  end.

(** [v[i]] for an [int] index [i], converted to [size_t]: defined only for
    [0 <= i < v.size()]. *)
Definition at_index (v : list string) (i : Z) : result string :=
  if (0 <=? i)%Z && (i <? Z.of_nat (List.length v))%Z then
    match nth_error v (Z.to_nat i) with
    | Some x => Ret x
    | None => Undefined
    end
  else Undefined.

(** [std::to_string] on an [int]. *)
Definition to_string (n : Z) : string := NilEmpty.string_of_int (Z.to_int n).

(** ** [IniParser::parse] *)

(** The local variables of [parse] other than the loop index. *)
Record locals : Type := mk_locals {
  curSection : string;
  state : Z;
  lineNumber : Z
}.

Definition initial_locals : locals :=
  {| curSection := ""; state := 0; lineNumber := 1 |}.

Definition set_state (l : locals) (st : Z) : locals :=
  {| curSection := curSection l; state := st; lineNumber := lineNumber l |}.

(** The part that the two messages share: up to the previous token and the
    opening arrow. *)
Definition message_head (p : IniParser) (line i : Z) : result string :=
  let message :=
    ("Syntax error on file " ++ str1 DQUOTE) ++ fileName p
    ++ (str1 DQUOTE ++ " at line ") in
  let message := message ++ to_string line in
  let message := message ++ ("." ++ nl ++ "...") in
  message ← (if (i - 1 >=? 0)%Z
             then prev ← at_index (tokens p) (i - 1); mret (message ++ prev)
             else mret message);
  mret (message ++ " ->").

(** A newline token is shown as [LF]. *)
Definition show_token (token : string) : string :=
  if negb (String.eqb token nl) then token else "LF".

(** The message built in the last branch of the loop body. *)
Definition loop_message (p : IniParser) (line i : Z) (token : string)
  : result string :=
  message ← message_head p line i;
  let message := message ++ show_token token in
  let message := message ++ "<- " in
  message ← (if (i + 1 <? Z.of_nat (List.length (tokens p)))%Z
             then next ← at_index (tokens p) (i + 1); mret (message ++ next)
             else mret message);
  mret (message ++ "...").

(** The message built after the loop, where [i] is [tokens.size()]. *)
Definition end_message (p : IniParser) (line i : Z) : result string :=
  message ← message_head p line i;
  token ← at_index (tokens p) i;
  let message := message ++ show_token token in
  mret (message ++ "<- EOF").

(** One iteration of the [for] loop, at index [i]. *)
Definition body (p : IniParser) (l : locals) (i : Z)
  : result (IniParser * locals) :=
  token ← at_index (tokens p) i;
  if (state l =? 0)%Z && String.eqb token "[" then mret (p, set_state l 1)
  else if (state l =? 1)%Z && isIdent token then mret (p, set_state l 2)
  else if (state l =? 2)%Z && String.eqb token "]" then
    prev ← at_index (tokens p) (i - 1);
    mret (p, {| curSection := prev; state := 0; lineNumber := lineNumber l |})
  else if (state l =? 0)%Z && isIdent token then mret (p, set_state l 3)
  else if (state l =? 3)%Z && String.eqb token "=" then mret (p, set_state l 4)
  else if (state l =? 4)%Z && isIdent token then
    key ← at_index (tokens p) (i - 2);
    mret (set_internal p (assign (internal p) (curSection l) key token),
          set_state l 0)
  else if (state l =? 4)%Z && String.eqb token nl then
    key ← at_index (tokens p) (i - 2);
    mret (set_internal p (assign (internal p) (curSection l) key ""),
          {| curSection := curSection l; state := 0;
             lineNumber := lineNumber l + 1 |})
  else if (state l =? 0)%Z && String.eqb token ";" then mret (p, set_state l 5)
  else if (state l =? 5)%Z && isIdent token then mret (p, set_state l 0)
  else if (state l =? 0)%Z && String.eqb token nl then
    mret (p, {| curSection := curSection l; state := 0;
                lineNumber := lineNumber l + 1 |})
  else
    message ← loop_message p (lineNumber l) i token;
    Throw (SyntaxError message) p.

(** [for (i = 0; i < tokens.size(); i++)]: [n] is the number of iterations
    that are left, [tokens.size() - i]. *)
Fixpoint for_loop (n : nat) (p : IniParser) (l : locals) (i : Z)
  : result (IniParser * locals * Z) :=
  match n with
  | O => mret (p, l, i)
  | S n' =>
      r ← body p l i;
      for_loop n' (fst r) (snd r) (i + 1)
  end.

Definition parse (p : IniParser) : result IniParser :=
  r ← for_loop (List.length (tokens p)) p initial_locals 0;
  let '(p1, l, i) := r in
  if negb (state l =? 0)%Z then
    message ← end_message p1 (lineNumber l) i;
    Throw (SyntaxError message) p1
  else mret p1.

(** ** [IniParser::read] *)

(** [tokens.push_back(token)]. *)
Definition push_back (ts : list string) (token : string) : list string :=
  ts ++ [token].

(** [if (!(token == "\0")) tokens.push_back(token);] *)
Definition push_token (ts : list string) (token : string) : list string :=
  if negb (String.eqb token NUL_literal) then push_back ts token else ts.

(** What decreases in the loop of [read]: every call of [getToken] consumes a
    character or sets [eofbit]. *)
Definition stream_measure (s : ifstream) : nat :=
  String.length (chars s) + (if eofbit s then 0 else 1).

Lemma accumulate_measure cs t :
  String.length (fst (snd (accumulate cs t)))
  + (if snd (snd (accumulate cs t)) then 0 else 1) <= String.length cs + 1.
Proof.
  revert t. induction cs as [|c r IH]; intros t; simpl.
  - lia.
  - destruct (reserved c); simpl; [lia|]. specialize (IH (t ++ str1 c)). lia.
Qed.

Lemma getToken_measure s :
  eofbit s = false -> stream_measure (snd (getToken s)) < stream_measure s.
Proof.
  destruct s as [cs e f]. simpl. intros ->.
  unfold getToken, peek, stream_measure. simpl.
  destruct cs as [|c r]; simpl; [lia|].
  destruct (reserved c) eqn:Hc; simpl.
  - destruct (Ascii.eqb c LF); simpl; lia.
  - match goal with
    | |- context [accumulate ?a ?b] =>
        pose proof (accumulate_measure a b) as H;
        destruct (accumulate a b) as [t [rest eof]]
    end.
    simpl in *. destruct (String.eqb t nl); simpl; lia.
Qed.

(** [while (!in.eof()) { std::string token = getToken(); if (!(token == "\0"))
    tokens.push_back(token); }] *)
Equations? read_loop (s : ifstream) (ts : list string) : ifstream * list string
  by wf (stream_measure s) lt :=
  read_loop (mk_ifstream cs true f) ts := (mk_ifstream cs true f, ts);
  read_loop (mk_ifstream cs false f) ts :=
    read_loop (snd (getToken (mk_ifstream cs false f)))
      (push_token ts (fst (getToken (mk_ifstream cs false f)))).
Proof. apply getToken_measure. reflexivity. Qed.

(** [in.open(fileName)] on a file with the given contents: the stream state is
    cleared. *)
Definition open_stream (content : string) : ifstream :=
  {| chars := content; eofbit := false; failbit := false |}.

(** [read()], where [file] is what the file system holds under [fileName] at
    the time of the call: [None] when the file cannot be opened, [Some content]
    when it opens and delivers [content] up to its end.  A file that opens and
    then fails while it is read (a directory: the stream sets [badbit] and,
    under the exception mask, [peek] throws out of the loop) is not among the
    inputs of this function.  Setting the exception mask on a stream whose
    [failbit] is set throws at once; [in.close()] leaves the flags as they
    are. *)
Definition read (file : option string) (p : IniParser) : result IniParser :=
  if failbit (inp p) then Throw ios_failure p
  else
    match file with
    | None =>
        Throw FileNotFound
          (set_inp p {| chars := chars (inp p); eofbit := eofbit (inp p);
                        failbit := true |})
    | Some content =>
        let '(s, ts) := read_loop (open_stream content) (tokens p) in
        parse (set_tokens (set_inp p s) ts)
    end.

(** The token sequence that [read] builds from a file, on an object whose
    token vector was empty. *)
Definition tokenize (content : string) : list string :=
  snd (read_loop (open_stream content) []).

(** ** Observing a result *)

(** The store after a call that returned. *)
Definition store_of (r : result IniParser)
  : option (gmap string (gmap string string)) :=
  match r with
  | Ret p => Some (internal p)
  | _ => None
  end.

(** The exception of a call that threw. *)
Definition thrown (r : result IniParser) : option exn :=
  match r with
  | Throw e _ => Some e
  | _ => None
  end.

(** An object whose token vector has been filled by hand. *)
Definition with_tokens (name : string) (ts : list string) : IniParser :=
  set_tokens (new_IniParser name) ts.

(** The text of a message of the loop, written out: file name, line, previous
    token, offending token as shown, next token. *)
Definition message_text (name line prev shown next : string) : string :=
  "Syntax error on file " ++ str1 DQUOTE ++ name ++ str1 DQUOTE ++ " at line "
  ++ line ++ "." ++ nl ++ "..." ++ prev ++ " ->" ++ shown ++ "<- " ++ next
  ++ "...".

(** ** What a token looks like *)

Fixpoint all_chars (f : ascii -> bool) (s : string) : bool :=
  match s with
  | EmptyString => true
  | String c r => f c && all_chars f r
  end.

(** No character of [s] is reserved. *)
Definition no_reserved (s : string) : bool :=
  all_chars (fun c => negb (reserved c)) s.

(** [s] begins with a character of [" \t\n\r"]. *)
Definition starts_ws (s : string) : bool :=
  match s with
  | EmptyString => false
  | String c _ => is_ws c
  end.

(** [s] ends with a character of [" \t\n\r"]. *)
Fixpoint ends_ws (s : string) : bool :=
  match s with
  | EmptyString => false
  | String c EmptyString => is_ws c
  | String _ r => ends_ws r
  end.

(** One of the five reserved symbols, as a string of one character. *)
Definition symbol_token (t : string) : bool :=
  match t with
  | String c EmptyString => reserved c
  | _ => false
  end.

(** An identifier: possibly empty, free of reserved characters, with no
    whitespace at either end. *)
Definition identifier_token (t : string) : bool :=
  no_reserved t && negb (starts_ws t) && negb (ends_ws t).

(** The number of newline tokens in a token sequence. *)
Fixpoint count_newlines (ts : list string) : Z :=
  match ts with
  | [] => 0
  | t :: r => ((if String.eqb t nl then 1 else 0) + count_newlines r)%Z
  end.

(** The tokens next to position [k], empty when there is none. *)
Definition token_before (ts : list string) (k : nat) : string :=
  match k with
  | O => ""
  | S k' => nth k' ts ""
  end.

Definition token_after (ts : list string) (k : nat) : string :=
  nth (S k) ts "".

(** ** The grammar of the format, on tokens

    [file := line*], where a line is a section header [[ IDENT ]], an
    assignment [IDENT = IDENT newline] or [IDENT = newline], a comment
    [; IDENT], or a blank line [newline].  The newline that may follow a
    header or a comment is a blank line of its own. *)
Inductive line : Type :=
| section_header (name : string)
| assignment (key : string) (value : option string)
| comment (text : string)
| blank.

Definition line_tokens (ln : line) : list string :=
  match ln with
  | section_header name => ["["; name; "]"]
  | assignment key (Some value) => [key; "="; value; nl]
  | assignment key None => [key; "="; nl]
  | comment text => [";"; text]
  | blank => [nl]
  end.

Definition file_tokens (lines : list line) : list string :=
  flat_map line_tokens lines.

(** Every [IDENT] of the line is an identifier for [isIdent]. *)
Definition valid_line (ln : line) : bool :=
  match ln with
  | section_header name => isIdent name
  | assignment key (Some value) => isIdent key && isIdent value
  | assignment key None => isIdent key
  | comment text => isIdent text
  | blank => true
  end.

(** The assignments of a file in file order, each with the section it falls
    under: the name of the last header before it, or [""] when there is
    none. *)
Fixpoint assignments (cur : string) (lines : list line)
  : list (string * string * string) :=
  match lines with
  | [] => []
  | section_header name :: rest => assignments name rest
  | assignment key value :: rest =>
      (cur, key, default "" value) :: assignments cur rest
  | _ :: rest => assignments cur rest
  end.

(** The value of the last assignment to [(section, key)] in the list. *)
Fixpoint last_value (l : list (string * string * string))
    (section key : string) : option string :=
  match l with
  | [] => None
  | (s, k, v) :: rest =>
      match last_value rest section key with
      | Some w => Some w
      | None => if String.eqb s section && String.eqb k key then Some v else None
      end
  end.

(** The store after the assignments of the list, made in order. *)
Definition store_after (m : gmap string (gmap string string))
    (l : list (string * string * string)) : gmap string (gmap string string) :=
  fold_left (fun m '(s, k, v) => assign m s k v) l m.

(** The section that is current after the lines. *)
Fixpoint section_after (cur : string) (lines : list line) : string :=
  match lines with
  | [] => cur
  | section_header name :: rest => section_after name rest
  | _ :: rest => section_after cur rest
  end.

(** ** The grammar of the format, on characters

    An [IDENT] in the text is a run of characters that are not reserved,
    trimmed of the whitespace around it: a [field] is the identifier with the
    blanks written before and after it. *)
Record field : Type := mk_field {
  pad_left : string;
  ident : string;
  pad_right : string
}.

Definition field_text (f : field) : string :=
  pad_left f ++ ident f ++ pad_right f.

(** Blanks, possibly none. *)
Definition blank_pad (w : string) : bool :=
  all_chars (fun c => is_ws c && negb (reserved c)) w.

(** The identifier is not empty and is an identifier token; the pads are
    blanks. *)
Definition valid_field (f : field) : bool :=
  blank_pad (pad_left f) && blank_pad (pad_right f)
  && negb (String.eqb (ident f) "") && identifier_token (ident f).







(** A run of blanks: one or more characters of [" \t\r"], the whitespace
    that is not reserved. *)
Definition blank_run (w : string) : bool :=
  negb (String.eqb w "")
  && all_chars (fun c => is_ws c && negb (reserved c)) w.

(** What follows a run of characters: the end of the stream or a reserved
    character. *)
Definition at_boundary (rest : string) : bool :=
  match rest with
  | EmptyString => true
  | String c _ => reserved c
  end.

(** [read()] of a first file, then [clear()], then [read()] again when the
    file holds [file2]. *)
Definition read_clear_read (name file1 file2 : string) : result IniParser :=
  p ← read (Some file1) (new_IniParser name);
  read (Some file2) (clear p).

(** The five reserved characters. *)
Definition is_reserved_char (c : ascii) : Prop :=
  (c = "[" \/ c = "]" \/ c = "=" \/ c = ";" \/ c = LF)%char.

(** In states 2 and 3 at least one token has been consumed, in state 4 at
    least two. *)
Definition consumed_enough (l : locals) (j : nat) : Prop :=
  (state l = 2%Z -> 1 <= j) /\ (state l = 3%Z -> 1 <= j)
  /\ (state l = 4%Z -> 2 <= j).

(** ** Further notions about tokens *)

(** The reserved characters of a text, in order. *)
Fixpoint reserved_chars (s : string) : list ascii :=
  match s with
  | EmptyString => []
  | String c r => if reserved c then c :: reserved_chars r else reserved_chars r
  end.

(** The tokens written one after the other. *)
Definition concat_tokens (ts : list string) : string :=
  fold_right String.append "" ts.

(** No two tokens that follow each other are both identifiers. *)
Fixpoint alternating (ts : list string) : bool :=
  match ts with
  | a :: r =>
      match r with
      | b :: _ => (symbol_token a || symbol_token b) && alternating r
      | [] => true
      end
  | [] => true
  end.

(** ** The automaton of [parse]

    The state that follows [st] on a token, or [None] when the token is
    rejected in [st]. *)
Definition next_state (st : Z) (token : string) : option Z :=
  match st with
  | 0%Z =>
      if String.eqb token "[" then Some 1%Z
      else if isIdent token then Some 3%Z
      else if String.eqb token ";" then Some 5%Z
      else if String.eqb token nl then Some 0%Z
      else None
  | 1%Z => if isIdent token then Some 2%Z else None
  | 2%Z => if String.eqb token "]" then Some 0%Z else None
  | 3%Z => if String.eqb token "=" then Some 4%Z else None
  | 4%Z => if isIdent token || String.eqb token nl then Some 0%Z else None
  | 5%Z => if isIdent token then Some 0%Z else None
  | _ => None
  end.

(** The state after a sequence of tokens, or [None] when one of them is
    rejected. *)
Fixpoint run_states (st : Z) (ts : list string) : option Z :=
  match ts with
  | [] => Some st
  | t :: r =>
      match next_state st t with
      | Some st' => run_states st' r
      | None => None
      end
  end.

(** Every section of [m] is a section of [m'], with at least the keys it had
    in [m]. *)
Definition keeps_keys (m m' : gmap string (gmap string string)) : Prop :=
  forall section sec,
    m !! section = Some sec ->
    exists sec',
      m' !! section = Some sec'
      /\ forall key, is_Some (sec !! key) -> is_Some (sec' !! key).

(** ** [IniParser::print]

    A [std::map] is traversed in the order of its keys; [std::string] keys
    are ordered as sequences of unsigned characters, which is the order of
    [String.le]. *)
Definition key_le {V : Type} (x y : string * V) : Prop := String.le (fst x) (fst y).

#[global] Instance key_le_dec {V : Type} : RelDecision (@key_le V).
Proof. intros x y. unfold key_le. apply _. Defined.

(** The pairs of a map, as a traversal from [begin()] to [end()] meets them. *)
Definition in_key_order {V : Type} (m : gmap string V) : list (string * V) :=
  merge_sort key_le (map_to_list m).

(** What one turn of the inner loop writes; [std::endl] writes a newline. *)
Definition print_line (section key value : string) : string :=
  "[" ++ section ++ "][" ++ key ++ "]=" ++ value ++ nl.

(** [print()]: the characters written to [std::cout]. *)
Definition print (p : IniParser) : string :=
  fold_right
    (fun secPair out =>
       fold_right
         (fun keyPair out =>
            print_line (fst secPair) (fst keyPair) (snd keyPair) ++ out)
         out (in_key_order (snd secPair)))
    "" (in_key_order (internal p)).

(** The triples of section, key and value that [print] goes through. *)
Definition entries (m : gmap string (gmap string string))
  : list (string * string * string) :=
  flat_map
    (fun secPair =>
       map (fun keyPair => (fst secPair, fst keyPair, snd keyPair))
         (in_key_order (snd secPair)))
    (in_key_order m).

(** The order of [print]: by section, then by key. *)
Definition entry_lt (x y : string * string * string) : Prop :=
  (String.le (fst (fst x)) (fst (fst y)) /\ fst (fst x) <> fst (fst y))
  \/ (fst (fst x) = fst (fst y)
      /\ String.le (snd (fst x)) (snd (fst y)) /\ snd (fst x) <> snd (fst y)).

(** The strict order of the keys. *)
Definition key_lt {V : Type} (x y : string * V) : Prop :=
  String.le (fst x) (fst y) /\ fst x <> fst y.

(** ** Calls on one object

    The calls that a user of the class can make.  [call_put] is the
    assignment [config[section][key] = value] through the reference that
    [operator[]] returns. *)
Inductive call : Type :=
| call_read (file : option string)
| call_clear
| call_index (section : string)
| call_get (section key : string)
| call_put (section key value : string)
| call_print.

(** The object after a call that has returned or thrown; [None] when the
    behaviour of the call is undefined. *)
Definition after_call (c : call) (p : IniParser) : option IniParser :=
  match c with
  | call_read file =>
      match read file p with
      | Ret q | Throw _ q => Some q
      | Undefined => None
      end
  | call_clear => Some (clear p)
  | call_index section => Some (snd (operator_index p section))
  | call_get section key => Some (snd (get p section key))
  | call_put section key value =>
      Some (set_internal p (assign (internal p) section key value))
  | call_print => Some p
  end.

Fixpoint after_calls (cs : list call) (p : IniParser) : option IniParser :=
  match cs with
  | [] => Some p
  | c :: r =>
      match after_call c p with
      | Some q => after_calls r q
      | None => None
      end
  end.

(** * Worked inputs *)

(** C1: the input [[a]], newline, [b=c], newline is split into the eight
    tokens [[], [a], []], newline, [b], [=], [c], newline, and parsing them
    gives the store with the one section [a] holding the one pair [b] -> [c]. *)
Theorem read_section_and_pair (name : string) :
  tokenize ("[a]" ++ nl ++ "b=c" ++ nl)
    = ["["; "a"; "]"; nl; "b"; "="; "c"; nl]
  /\ store_of (parse (with_tokens name ["["; "a"; "]"; nl; "b"; "="; "c"; nl]))
    = Some {[ "a" := {[ "b" := "c" ]} ]}
  /\ store_of (read (Some ("[a]" ++ nl ++ "b=c" ++ nl)) (new_IniParser name))
    = Some {[ "a" := {[ "b" := "c" ]} ]}.
Proof. repeat split; vm_compute; reflexivity. Qed.

(** C6: the input [k=], newline, with no section header before it, is
    accepted and gives exactly the entry with section [""], key [k] and
    value [""]. *)
Theorem read_empty_value_default_section (name : string) :
  tokenize ("k=" ++ nl) = ["k"; "="; nl]
  /\ store_of (read (Some ("k=" ++ nl)) (new_IniParser name))
    = Some {[ "" := {[ "k" := "" ]} ]}.
Proof. split; vm_compute; reflexivity. Qed.

(** C4, counterexample: the input [[]] is rejected.  Its tokens are [[] and
    []], and in state 1 the token []] is not an identifier. *)
Lemma empty_brackets_rejected :
  tokenize "[]" = ["["; "]"]
  /\ thrown (read (Some "[]") (new_IniParser "config.ini"))
    = Some (SyntaxError (message_text "config.ini" "1" "[" "]" "")).
Proof. split; vm_compute; reflexivity. Qed.


(** * The identifier check *)

Lemma reserved_true_iff (c : ascii) : reserved c = true <-> is_reserved_char c.
Proof.
  unfold reserved, is_reserved_char.
  rewrite !orb_true_iff, !Ascii.eqb_eq. tauto.
Qed.

Lemma reserved_false_iff (c : ascii) : reserved c = false <-> ~ is_reserved_char c.
Proof.
  rewrite <- reserved_true_iff. destruct (reserved c); split; congruence.
Qed.

(** C7: [isIdent] answers false exactly for the strings of length one whose
    character is one of [[], []], [=], [;] and newline; the empty string and
    every string of two or more characters are identifiers. *)
Theorem isIdent_false_iff_reserved_symbol (s : string) :
  (isIdent s = false <->
     String.length s = 1 /\ exists c, s = str1 c /\ is_reserved_char c)
  /\ isIdent "" = true
  /\ (forall c d r, isIdent (String c (String d r)) = true)
  /\ (isIdent s = true <->
        String.length s <> 1 \/ exists c, s = str1 c /\ ~ is_reserved_char c).
Proof.
  split; [|split; [reflexivity|split; [reflexivity|]]].
  - destruct s as [|c [|d r]]; simpl.
    + split; [discriminate|]. intros [H _]. discriminate H.
    + rewrite negb_false_iff, reserved_true_iff. split.
      * intros H. split; [reflexivity|]. exists c. split; [reflexivity|exact H].
      * intros [_ [c' [Hc' H]]]. injection Hc' as ->. exact H.
    + split; [discriminate|]. intros [H _]. discriminate H.
  - destruct s as [|c [|d r]]; simpl.
    + split; [intros _; left; discriminate|reflexivity].
    + rewrite negb_true_iff, reserved_false_iff. split.
      * intros H. right. exists c. split; [reflexivity|exact H].
      * intros [H|[c' [Hc' H]]]; [congruence|]. injection Hc' as ->. exact H.
    + split; [intros _; left; discriminate|reflexivity].
Qed.

(** * The tokenizer *)

#[local] Arguments mem_char : simpl never.
#[local] Arguments reserved : simpl never.

Lemma all_chars_append f s t :
  all_chars f (s ++ t) = all_chars f s && all_chars f t.
Proof.
  induction s as [|c r IH]; simpl; [reflexivity|].
  rewrite IH. apply andb_assoc.
Qed.

Lemma all_chars_substring f n m s :
  all_chars f s = true -> all_chars f (substring n m s) = true.
Proof.
  revert n m. induction s as [|c r IH]; intros n m H.
  - destruct n, m; exact H.
  - simpl in H. apply andb_true_iff in H as [Hc Hr].
    destruct n as [|n]; simpl.
    + destruct m as [|m]; simpl; [reflexivity|].
      rewrite Hc. simpl. apply IH. exact Hr.
    + apply IH. exact Hr.
Qed.

Lemma accumulate_no_reserved cs t :
  no_reserved t = true -> no_reserved (fst (accumulate cs t)) = true.
Proof.
  revert t. induction cs as [|c r IH]; intros t Ht; simpl; [exact Ht|].
  destruct (reserved c) eqn:Hc; simpl; [exact Ht|].
  apply IH. unfold no_reserved in *. rewrite all_chars_append, Ht. simpl.
  rewrite Hc. reflexivity.
Qed.

(** The position that [find_first_not_of] finds holds a character outside
    of the set. *)
Lemma substring_first_not_ws s first m :
  find_first_not_of whitespace s = Some first ->
  starts_ws (substring first (S m) s) = false.
Proof.
  revert first. induction s as [|c r IH]; intros first; simpl; [discriminate|].
  destruct (mem_char c whitespace) eqn:Hc.
  - destruct (find_first_not_of whitespace r) as [k|]; simpl; [|discriminate].
    intros [= <-]. apply IH. reflexivity.
  - intros [= <-]. simpl. exact Hc.
Qed.

Lemma find_first_le_last s first last :
  find_first_not_of whitespace s = Some first ->
  find_last_not_of whitespace s = Some last ->
  first <= last.
Proof.
  revert first last. induction s as [|c r IH]; intros first last; simpl;
    [discriminate|].
  destruct (mem_char c whitespace) eqn:Hc.
  - destruct (find_first_not_of whitespace r) as [k|]; simpl; [|discriminate].
    intros [= <-].
    destruct (find_last_not_of whitespace r) as [j|]; [|discriminate].
    intros [= <-]. specialize (IH k j eq_refl eq_refl). lia.
  - intros [= <-] _. lia.
Qed.

Lemma substring_nonempty m s :
  s <> "" -> substring 0 (S m) s <> "".
Proof. destruct s; [congruence|]. simpl. discriminate. Qed.

Lemma find_last_nonempty s last :
  find_last_not_of whitespace s = Some last -> s <> "".
Proof. destruct s; [discriminate|]. intros _. discriminate. Qed.

Lemma ends_ws_cons c s : s <> "" -> ends_ws (String c s) = ends_ws s.
Proof. destruct s; [congruence|]. reflexivity. Qed.

(** The position that [find_last_not_of] finds holds a character outside of
    the set, and the substring ends there. *)
Lemma substring_last_not_ws s first last :
  find_last_not_of whitespace s = Some last ->
  first <= last ->
  ends_ws (substring first (last - first + 1) s) = false.
Proof.
  revert first last. induction s as [|c r IH]; intros first last; simpl;
    [discriminate|].
  destruct (find_last_not_of whitespace r) as [j|] eqn:Hj.
  - intros [= <-] Hle. destruct first as [|f].
    + replace (S j - 0 + 1) with (S (j - 0 + 1)) by lia.
      rewrite ends_ws_cons.
      * apply IH; [reflexivity|lia].
      * replace (j - 0 + 1) with (S j) by lia.
        apply substring_nonempty. eapply find_last_nonempty. exact Hj.
    + replace (S j - S f + 1) with (j - f + 1) by lia.
      apply IH; [reflexivity|lia].
  - destruct (mem_char c whitespace) eqn:Hc; [discriminate|].
    intros [= <-] Hle. assert (first = 0) as -> by lia.
    simpl. destruct r; exact Hc.
Qed.

Lemma trimWS_identifier t :
  no_reserved t = true -> identifier_token (trimWS t) = true.
Proof.
  intros Ht. unfold trimWS.
  destruct (find_first_not_of whitespace t) as [first|] eqn:Hf; [|reflexivity].
  destruct (find_last_not_of whitespace t) as [last|] eqn:Hl; [|reflexivity].
  pose proof (find_first_le_last _ _ _ Hf Hl) as Hle.
  unfold identifier_token, no_reserved.
  rewrite all_chars_substring by exact Ht.
  rewrite (substring_last_not_ws _ _ _ Hl Hle).
  replace (last - first + 1) with (S (last - first)) by lia.
  rewrite (substring_first_not_ws _ _ _ Hf). reflexivity.
Qed.

Lemma trimWS_symbol c :
  reserved c = true -> c <> LF -> trimWS (str1 c) = str1 c.
Proof.
  intros H Hn. apply reserved_true_iff in H.
  destruct H as [-> | [-> | [-> | [-> | ->]]]]; try reflexivity. congruence.
Qed.

Lemma string_app_assoc (a b c : string) : (a ++ b) ++ c = a ++ (b ++ c).
Proof.
  induction a as [|x a IH]; [reflexivity|].
  change (String x ((a ++ b) ++ c) = String x (a ++ (b ++ c))).
  rewrite IH. reflexivity.
Qed.

Lemma string_app_empty_r (a : string) : a ++ "" = a.
Proof.
  induction a as [|x a IH]; [reflexivity|].
  change (String x (a ++ "") = String x a). rewrite IH. reflexivity.
Qed.

(** *** What one call of [getToken] returns *)

Lemma getToken_at_end e f :
  getToken {| chars := ""; eofbit := e; failbit := f |}
  = ("", {| chars := ""; eofbit := true; failbit := f |}).
Proof. reflexivity. Qed.

Lemma getToken_reserved c r f :
  reserved c = true ->
  getToken {| chars := String c r; eofbit := false; failbit := f |}
  = (str1 c, {| chars := r; eofbit := false; failbit := f |}).
Proof.
  intros Hc. unfold getToken. simpl. rewrite Hc.
  change ("" ++ str1 c) with (str1 c).
  destruct (String.eqb (str1 c) nl) eqn:E; [reflexivity|].
  rewrite trimWS_symbol; [reflexivity|exact Hc|].
  intros ->. discriminate E.
Qed.

Lemma no_reserved_not_nl t : no_reserved t = true -> String.eqb t nl = false.
Proof.
  intros H. apply String.eqb_neq. intros ->. discriminate H.
Qed.

Lemma getToken_run c r f :
  reserved c = false ->
  getToken {| chars := String c r; eofbit := false; failbit := f |}
  = (trimWS (fst (accumulate r (str1 c))),
     {| chars := fst (snd (accumulate r (str1 c)));
        eofbit := snd (snd (accumulate r (str1 c)));
        failbit := f |}).
Proof.
  intros Hc. unfold getToken. simpl. rewrite Hc.
  pose proof (accumulate_no_reserved r (str1 c)) as H.
  destruct (accumulate r (str1 c)) as [t [rest eof]] eqn:E.
  change ("" ++ str1 c) with (str1 c). rewrite E. simpl in *.
  rewrite no_reserved_not_nl; [reflexivity|].
  apply H. unfold no_reserved. simpl. rewrite Hc. reflexivity.
Qed.

(** Every value that [getToken] returns is a reserved symbol or an
    identifier. *)
Lemma getToken_shape s :
  symbol_token (fst (getToken s)) = true
  \/ identifier_token (fst (getToken s)) = true.
Proof.
  destruct s as [cs e f]. destruct cs as [|c r].
  - right. reflexivity.
  - destruct e.
    + right. reflexivity.
    + destruct (reserved c) eqn:Hc.
      * left. rewrite getToken_reserved by exact Hc. exact Hc.
      * right. rewrite getToken_run by exact Hc. simpl.
        apply trimWS_identifier, accumulate_no_reserved.
        unfold no_reserved. simpl. rewrite Hc. reflexivity.
Qed.

(** *** The loop of [read] *)

Lemma push_token_app ts token :
  push_token ts token = (ts ++ push_token [] token)%list.
Proof.
  unfold push_token, push_back. destruct (negb (String.eqb token NUL_literal)).
  - reflexivity.
  - symmetry. apply app_nil_r.
Qed.

(** The loop only appends to the token vector. *)
Lemma read_loop_app s ts :
  snd (read_loop s ts) = (ts ++ snd (read_loop s []))%list.
Proof.
  remember (S (stream_measure s)) as n eqn:Hn.
  assert (stream_measure s < n) as Hlt by lia. clear Hn.
  revert s ts Hlt. induction n as [|n IH]; intros s ts Hlt; [lia|].
  destruct s as [cs [|] f].
  - rewrite !read_loop_equation_1. simpl. symmetry. apply app_nil_r.
  - rewrite !read_loop_equation_2.
    pose proof (getToken_measure {| chars := cs; eofbit := false; failbit := f |}
                  eq_refl) as Hm.
    rewrite IH by lia. rewrite (IH _ (push_token [] _)) by lia.
    rewrite (push_token_app ts). rewrite app_assoc. reflexivity.
Qed.

(** A property of every non-empty value of [getToken] holds of every token
    that the loop appends. *)
Lemma read_loop_Forall (Q : string -> Prop) :
  (forall s, fst (getToken s) <> "" -> Q (fst (getToken s))) ->
  forall s ts, Forall Q ts -> Forall Q (snd (read_loop s ts)).
Proof.
  intros HQ s. remember (S (stream_measure s)) as n eqn:Hn.
  assert (stream_measure s < n) as Hlt by lia. clear Hn.
  revert s Hlt. induction n as [|n IH]; intros s Hlt ts Hts; [lia|].
  destruct s as [cs [|] f].
  - rewrite read_loop_equation_1. exact Hts.
  - rewrite read_loop_equation_2.
    pose proof (getToken_measure {| chars := cs; eofbit := false; failbit := f |}
                  eq_refl) as Hm.
    apply IH; [lia|].
    unfold push_token, push_back, NUL_literal.
    destruct (String.eqb _ "") eqn:E; simpl; [exact Hts|].
    apply Forall_app. split; [exact Hts|].
    constructor; [|constructor]. apply HQ. apply String.eqb_neq. exact E.
Qed.

(** C10: every value returned by [getToken], and so every token of the
    sequence built from any input, is one of the symbols [[], []], [=], [;],
    newline, or an identifier, possibly empty, that holds no reserved character
    and neither begins nor ends with whitespace. *)
Theorem tokens_are_symbols_or_identifiers :
  (forall s : ifstream,
      symbol_token (fst (getToken s)) = true
      \/ identifier_token (fst (getToken s)) = true)
  /\ (forall (content t : string),
        In t (tokenize content) ->
        symbol_token t = true \/ identifier_token t = true).
Proof.
  split; [exact getToken_shape|].
  intros content t Hin.
  assert (Forall (fun t => symbol_token t = true \/ identifier_token t = true)
            (tokenize content)) as H.
  { apply read_loop_Forall; [|constructor]. intros s _. apply getToken_shape. }
  rewrite Forall_forall in H. apply H. apply list_elem_of_In. exact Hin.
Qed.

Lemma tokens_are_symbols_or_identifiers_witness :
  In "a" (tokenize ("[ a ]" ++ nl))
  /\ (symbol_token "a" = true \/ identifier_token "a" = true).
Proof.
  assert (In "a" (tokenize ("[ a ]" ++ nl))) as H.
  { vm_compute. right. left. reflexivity. }
  split; [exact H|].
  exact (proj2 tokens_are_symbols_or_identifiers ("[ a ]" ++ nl) "a" H).
Defined.

(** *** A second [read] on the same object *)

(** [read] appends the tokens of the file to the tokens that the object
    holds, and parses them all. *)
Lemma read_appends_tokens m name cs e ts content :
  read (Some content)
    {| internal := m; fileName := name;
       inp := {| chars := cs; eofbit := e; failbit := false |}; tokens := ts |}
  = parse {| internal := m; fileName := name;
             inp := fst (read_loop (open_stream content) ts);
             tokens := (ts ++ tokenize content)%list |}.
Proof.
  unfold read, tokenize. simpl failbit. cbv iota. simpl tokens.
  rewrite <- read_loop_app.
  destruct (read_loop (open_stream content) ts) as [s ts']. reflexivity.
Qed.

(** C2, at the failing inputs: [read] never empties the token vector, so the
    second [read] parses the tokens of the first file followed by those of the
    second.  After the first file [[a]], [b=c] and the second file [d=e] the
    store holds the pair of the first file again, and the pair of the second
    under the section of the first, where a new object gives [""] -> [d] ->
    [e]; and reading the unchanged file [k=v], [[a]] a second time gives a
    store that differs from the first.  In general [read] parses the tokens
    that the object holds already, followed by those of the file. *)
Theorem second_read_reparses_first_file (name : string) :
  store_of (read_clear_read name ("[a]" ++ nl ++ "b=c" ++ nl) ("d=e" ++ nl))
    = Some {[ "a" := {[ "b" := "c"; "d" := "e" ]} ]}
  /\ store_of (read (Some ("d=e" ++ nl)) (new_IniParser name))
    = Some {[ "" := {[ "d" := "e" ]} ]}
  /\ store_of (read (Some ("k=v" ++ nl ++ "[a]" ++ nl)) (new_IniParser name))
    = Some {[ "" := {[ "k" := "v" ]} ]}
  /\ store_of (read_clear_read name ("k=v" ++ nl ++ "[a]" ++ nl)
                 ("k=v" ++ nl ++ "[a]" ++ nl))
    = Some {[ "" := {[ "k" := "v" ]}; "a" := {[ "k" := "v" ]} ]}
  /\ (forall m cs e ts content,
        read (Some content)
          {| internal := m; fileName := name;
             inp := {| chars := cs; eofbit := e; failbit := false |};
             tokens := ts |}
        = parse {| internal := m; fileName := name;
                   inp := fst (read_loop (open_stream content) ts);
                   tokens := (ts ++ tokenize content)%list |}).
Proof.
  repeat split; try (vm_compute; reflexivity).
  intros m cs e ts content. apply read_appends_tokens.
Qed.

(** *** The token sequence of an input, by cases on its first character *)

Lemma tokenize_empty : tokenize "" = [].
Proof. reflexivity. Qed.

Lemma tokenize_reserved c r :
  reserved c = true -> tokenize (String c r) = str1 c :: tokenize r.
Proof.
  intros Hc. unfold tokenize, open_stream.
  rewrite read_loop_equation_2, getToken_reserved by exact Hc.
  simpl fst. simpl snd. rewrite read_loop_app. reflexivity.
Qed.

Lemma accumulate_eof cs t :
  snd (snd (accumulate cs t)) = true -> fst (snd (accumulate cs t)) = "".
Proof.
  revert t. induction cs as [|c r IH]; intros t; simpl; [reflexivity|].
  destruct (reserved c); simpl; [discriminate|]. apply IH.
Qed.

Lemma tokenize_run c r :
  reserved c = false ->
  tokenize (String c r)
  = (push_token [] (trimWS (fst (accumulate r (str1 c))))
     ++ tokenize (fst (snd (accumulate r (str1 c)))))%list.
Proof.
  intros Hc. unfold tokenize, open_stream.
  rewrite read_loop_equation_2, getToken_run by exact Hc.
  simpl fst. simpl snd. rewrite read_loop_app. f_equal.
  pose proof (accumulate_eof r (str1 c)) as He.
  destruct (accumulate r (str1 c)) as [t [rest [|]]]; simpl in *.
  - rewrite He by reflexivity. rewrite read_loop_equation_1. reflexivity.
  - reflexivity.
Qed.

Lemma accumulate_rest_length cs t :
  String.length (fst (snd (accumulate cs t))) <= String.length cs.
Proof.
  revert t. induction cs as [|c r IH]; intros t; simpl; [lia|].
  destruct (reserved c); simpl; [lia|]. specialize (IH (t ++ str1 c)). lia.
Qed.

(** A reserved character further on does not change what a run collects. *)
Lemma accumulate_before_reserved r a y t :
  reserved a = true ->
  accumulate (r ++ String a y) t
  = (fst (accumulate r t), (fst (snd (accumulate r t)) ++ String a y, false)).
Proof.
  intros Ha. revert t. induction r as [|c r IH]; intros t.
  - simpl. rewrite Ha. reflexivity.
  - change (String c r ++ String a y) with (String c (r ++ String a y)).
    simpl. destruct (reserved c); [reflexivity|]. apply IH.
Qed.

(** A reserved character separates the tokens before it from those after
    it. *)
Lemma tokenize_reserved_middle x a y :
  reserved a = true ->
  tokenize (x ++ String a y) = (tokenize x ++ str1 a :: tokenize y)%list.
Proof.
  intros Ha. remember (S (String.length x)) as n eqn:Hn.
  assert (String.length x < n) as Hlt by lia. clear Hn.
  revert x Hlt. induction n as [|n IH]; intros x Hlt; [lia|].
  destruct x as [|c r].
  - change ("" ++ String a y) with (String a y).
    rewrite tokenize_reserved by exact Ha. reflexivity.
  - change (String c r ++ String a y) with (String c (r ++ String a y)).
    simpl in Hlt. destruct (reserved c) eqn:Hc.
    + rewrite !tokenize_reserved by exact Hc. rewrite IH by lia. reflexivity.
    + rewrite !tokenize_run by exact Hc.
      rewrite accumulate_before_reserved by exact Ha. simpl fst. simpl snd.
      pose proof (accumulate_rest_length r (str1 c)).
      rewrite IH by lia. rewrite app_assoc. reflexivity.
Qed.

(** *** Runs of blanks *)

Lemma accumulate_blank w : forall t rest,
  all_chars (fun c => is_ws c && negb (reserved c)) w = true ->
  at_boundary rest = true ->
  accumulate (w ++ rest) t = (t ++ w, (rest, String.eqb rest "")).
Proof.
  induction w as [|c w IH]; intros t rest Hw Hr.
  - change ("" ++ rest) with rest. rewrite string_app_empty_r.
    destruct rest as [|a y]; simpl in *; [reflexivity|]. rewrite Hr. reflexivity.
  - simpl in Hw. apply andb_true_iff in Hw as [Hc Hw].
    apply andb_true_iff in Hc as [_ Hc]. apply negb_true_iff in Hc.
    change (String c w ++ rest) with (String c (w ++ rest)). simpl.
    rewrite Hc, IH by assumption. rewrite string_app_assoc. reflexivity.
Qed.

Lemma trimWS_blank w :
  all_chars (fun c => is_ws c && negb (reserved c)) w = true -> trimWS w = "".
Proof.
  intros Hw. unfold trimWS.
  assert (find_first_not_of whitespace w = None) as ->; [|reflexivity].
  induction w as [|c w IH]; [reflexivity|].
  simpl in Hw. apply andb_true_iff in Hw as [Hc Hw].
  apply andb_true_iff in Hc as [Hc _]. unfold is_ws in Hc.
  simpl. rewrite Hc, IH by exact Hw. reflexivity.
Qed.

(** * The parser *)

(** *** Indexing the token vector *)

Lemma at_index_nth_error (v : list string) (j : nat) (x : string) :
  nth_error v j = Some x -> at_index v (Z.of_nat j) = Ret x.
Proof.
  intros H. unfold at_index.
  assert (j < List.length v)%nat as Hlt
    by (apply nth_error_Some; congruence).
  replace (0 <=? Z.of_nat j)%Z with true by (symmetry; apply Z.leb_le; lia).
  replace (Z.of_nat j <? Z.of_nat (List.length v))%Z with true
    by (symmetry; apply Z.ltb_lt; lia).
  simpl. rewrite Nat2Z.id, H. reflexivity.
Qed.

Lemma at_index_size (v : list string) :
  at_index v (Z.of_nat (List.length v)) = Undefined.
Proof.
  unfold at_index. rewrite Z.ltb_irrefl, andb_false_r. reflexivity.
Qed.

Lemma at_index_not_throw (v : list string) (i : Z) e q :
  at_index v i <> Throw e q.
Proof.
  unfold at_index. destruct (_ && _); [|discriminate].
  destruct (nth_error v (Z.to_nat i)); discriminate.
Qed.

Lemma bind_Ret {A B : Type} (a : A) (k : A -> result B) :
  (Ret a ≫= k) = k a.
Proof. reflexivity. Qed.

Lemma bind_Throw {A B : Type} e q (k : A -> result B) :
  (Throw e q ≫= k) = Throw e q.
Proof. reflexivity. Qed.

Lemma bind_Undefined {A B : Type} (k : A -> result B) :
  (Undefined ≫= k) = Undefined.
Proof. reflexivity. Qed.

(** *** The messages *)

Lemma message_head_not_throw p line i e q : message_head p line i <> Throw e q.
Proof.
  unfold message_head. destruct (i - 1 >=? 0)%Z; simpl; [|discriminate].
  destruct (at_index (tokens p) (i - 1)) eqn:E; simpl; try discriminate.
  exfalso. exact (at_index_not_throw _ _ _ _ E).
Qed.

(** After the loop [i] is the size of the vector, and [tokens[i]] is not an
    element of it. *)
Lemma end_message_undefined p line :
  end_message p line (Z.of_nat (List.length (tokens p))) = Undefined.
Proof.
  unfold end_message.
  destruct (message_head p line _) as [m|e q|] eqn:E; simpl.
  - rewrite at_index_size. reflexivity.
  - exfalso. exact (message_head_not_throw _ _ _ _ _ E).
  - reflexivity.
Qed.

Lemma loop_message_not_throw p line i token e q :
  loop_message p line i token <> Throw e q.
Proof.
  unfold loop_message.
  destruct (message_head p line i) as [m|e' q'|] eqn:E; simpl.
  - destruct (_ <? _)%Z; simpl; [|discriminate].
    destruct (at_index (tokens p) (i + 1)) eqn:E'; simpl; try discriminate.
    exfalso. exact (at_index_not_throw _ _ _ _ E').
  - exfalso. exact (message_head_not_throw _ _ _ _ _ E).
  - discriminate.
Qed.

(** Case analysis on the branches of the loop body. *)
Ltac body_branches :=
  repeat match goal with
    | |- context [if ?b then _ else _] => destruct b eqn:?
    | |- context [at_index ?v ?i ≫= _] =>
        let E := fresh "E" in
        destruct (at_index v i) eqn:E;
        [ rewrite bind_Ret
        | exfalso; exact (at_index_not_throw _ _ _ _ E)
        | rewrite bind_Undefined ]
    | |- context [loop_message ?p ?l ?i ?t ≫= _] =>
        let E := fresh "E" in
        destruct (loop_message p l i t) eqn:E;
        [ rewrite bind_Ret
        | exfalso; exact (loop_message_not_throw _ _ _ _ _ _ E)
        | rewrite bind_Undefined ]
    end.

(** One iteration keeps the token vector and the file name; it adds one to
    the line number exactly when its token is a newline; and when it throws,
    the message is the one built from the line number it started with. *)
Lemma body_cases p l j token :
  nth_error (tokens p) j = Some token ->
  match body p l (Z.of_nat j) with
  | Ret (p', l') =>
      tokens p' = tokens p /\ fileName p' = fileName p
      /\ lineNumber l'
         = (lineNumber l + (if String.eqb token nl then 1 else 0))%Z
  | Throw e q =>
      q = p /\ exists msg, e = SyntaxError msg
        /\ loop_message p (lineNumber l) (Z.of_nat j) token = Ret msg
  | Undefined => True
  end.
Proof.
  intros Hj. unfold body. rewrite (at_index_nth_error _ _ _ Hj), bind_Ret.
  destruct (String.eqb token nl) eqn:Hnl.
  - apply String.eqb_eq in Hnl. subst token.
    replace (String.eqb nl "[") with false by reflexivity.
    replace (String.eqb nl "]") with false by reflexivity.
    replace (String.eqb nl "=") with false by reflexivity.
    replace (String.eqb nl ";") with false by reflexivity.
    replace (isIdent nl) with false by reflexivity.
    rewrite !andb_false_r, !andb_true_r.
    body_branches; simpl; eauto.
  - rewrite !andb_false_r.
    body_branches; simpl; rewrite ?Z.add_0_r; eauto.
Qed.

Lemma at_index_pred (v : list string) (k : nat) :
  (S k < List.length v)%nat \/ (S k <= List.length v)%nat ->
  at_index v (Z.of_nat (S k) - 1) = Ret (nth k v "").
Proof.
  intros H. replace (Z.of_nat (S k) - 1)%Z with (Z.of_nat k) by lia.
  apply at_index_nth_error. apply nth_error_nth'. lia.
Qed.

(** The message of the loop, written out. *)
Lemma loop_message_text p line (k : nat) token :
  (k < List.length (tokens p))%nat ->
  loop_message p line (Z.of_nat k) token
  = Ret (message_text (fileName p) (to_string line)
           (token_before (tokens p) k) (show_token token)
           (token_after (tokens p) k)).
Proof.
  intros Hk. unfold loop_message, message_head, message_text.
  destruct k as [|k].
  - change (Z.of_nat 0 - 1 >=? 0)%Z with false. cbv iota.
    rewrite !bind_Ret. unfold token_before, token_after.
    destruct (Z.of_nat 0 + 1 <? Z.of_nat (List.length (tokens p)))%Z eqn:E.
    + replace (Z.of_nat 0 + 1)%Z with (Z.of_nat 1) by lia.
      rewrite (at_index_nth_error _ 1 (nth 1 (tokens p) ""))
        by (apply nth_error_nth'; apply Z.ltb_lt in E; lia).
      rewrite !bind_Ret. unfold mret, result_ret. f_equal.
      rewrite !string_app_assoc. reflexivity.
    + rewrite !bind_Ret. unfold mret, result_ret. f_equal.
      rewrite (nth_overflow (tokens p) (n:=1)) by (apply Z.ltb_ge in E; lia).
      rewrite !string_app_assoc. reflexivity.
  - replace (Z.of_nat (S k) - 1 >=? 0)%Z with true
      by (symmetry; apply Z.geb_le; lia).
    rewrite at_index_pred by lia.
    rewrite !bind_Ret. unfold token_before, token_after.
    destruct (Z.of_nat (S k) + 1 <? Z.of_nat (List.length (tokens p)))%Z eqn:E.
    + replace (Z.of_nat (S k) + 1)%Z with (Z.of_nat (S (S k))) by lia.
      rewrite (at_index_nth_error _ (S (S k)) (nth (S (S k)) (tokens p) ""))
        by (apply nth_error_nth'; apply Z.ltb_lt in E; lia).
      rewrite !bind_Ret. unfold mret, result_ret. f_equal.
      rewrite !string_app_assoc. reflexivity.
    + rewrite !bind_Ret. unfold mret, result_ret. f_equal.
      rewrite (nth_overflow (tokens p) (n:=S (S k))) by (apply Z.ltb_ge in E; lia).
      rewrite !string_app_assoc. reflexivity.
Qed.

(** *** The line counter *)

Lemma count_newlines_firstn_S ts j t :
  nth_error ts j = Some t ->
  count_newlines (firstn (S j) ts)
  = (count_newlines (firstn j ts) + (if String.eqb t nl then 1 else 0))%Z.
Proof.
  revert j. induction ts as [|x ts IH]; intros j H.
  - destruct j; discriminate H.
  - destruct j as [|j].
    + injection H as ->. simpl. destruct ts; simpl; lia.
    + simpl in H. specialize (IH j H).
      change (firstn (S (S j)) (x :: ts)) with (x :: firstn (S j) ts).
      change (firstn (S j) (x :: ts)) with (x :: firstn j ts).
      simpl count_newlines. rewrite IH. lia.
Qed.

(** The loop, started at index [j] with the line number that counts the
    newline tokens before [j], either runs through [n] more tokens and ends
    with the line number that counts the newline tokens before [j + n], or
    throws at some index [k] the message built with the line number that
    counts the newline tokens before [k]. *)
Lemma for_loop_line_number n : forall (j : nat) p l,
  (j + n <= List.length (tokens p))%nat ->
  lineNumber l = (1 + count_newlines (firstn j (tokens p)))%Z ->
  match for_loop n p l (Z.of_nat j) with
  | Ret (p', l', i') =>
      i' = Z.of_nat (j + n) /\ tokens p' = tokens p
      /\ fileName p' = fileName p
      /\ lineNumber l' = (1 + count_newlines (firstn (j + n) (tokens p)))%Z
  | Throw e q =>
      exists (k : nat) token,
        nth_error (tokens p) k = Some token
        /\ tokens q = tokens p /\ fileName q = fileName p
        /\ e = SyntaxError
                 (message_text (fileName p)
                    (to_string (1 + count_newlines (firstn k (tokens p))))
                    (token_before (tokens p) k) (show_token token)
                    (token_after (tokens p) k))
  | Undefined => True
  end.
Proof.
  induction n as [|n IH]; intros j p l Hlen Hline.
  - simpl. rewrite Nat.add_0_r. auto.
  - destruct (nth_error (tokens p) j) as [token|] eqn:Hj;
      [|apply nth_error_None in Hj; lia].
    pose proof (body_cases p l j token Hj) as Hb.
    simpl for_loop. destruct (body p l (Z.of_nat j)) as [[p' l']|e q|].
    + destruct Hb as (Ht & Hf & Hl). rewrite bind_Ret. simpl fst. simpl snd.
      replace (Z.of_nat j + 1)%Z with (Z.of_nat (S j)) by lia.
      specialize (IH (S j) p' l').
      rewrite Ht, Hf in IH.
      replace (S j + n)%nat with (j + S n)%nat in IH by lia.
      apply IH; [lia|].
      rewrite Hl, Hline, (count_newlines_firstn_S _ _ _ Hj). lia.
    + destruct Hb as (-> & msg & -> & Hmsg). simpl.
      exists j, token. repeat split; [exact Hj|].
      rewrite loop_message_text in Hmsg
        by (apply nth_error_Some; congruence).
      injection Hmsg as <-. rewrite Hline. reflexivity.
    + exact I.
Qed.

(** When the loop ends in a state other than 0, the branch after it reads
    [tokens[tokens.size()]]. *)
Lemma parse_unterminated p p' l' i' :
  for_loop (List.length (tokens p)) p initial_locals 0 = Ret (p', l', i') ->
  state l' <> 0%Z ->
  parse p = Undefined.
Proof.
  intros Hloop Hstate. unfold parse. rewrite Hloop, bind_Ret.
  pose proof (for_loop_line_number (List.length (tokens p)) 0 p initial_locals)
    as H.
  change (Z.of_nat 0) with 0%Z in H. rewrite Hloop in H.
  destruct H as (-> & Ht & _); [simpl; lia|reflexivity|].
  replace (negb (state l' =? 0)%Z) with true
    by (symmetry; apply negb_true_iff, Z.eqb_neq; exact Hstate).
  simpl Nat.add. rewrite <- Ht, end_message_undefined. reflexivity.
Qed.

Lemma parse_throw_in_loop p e q :
  parse p = Throw e q ->
  for_loop (List.length (tokens p)) p initial_locals 0 = Throw e q.
Proof.
  unfold parse. intros H.
  destruct (for_loop _ p initial_locals 0) as [[[p' l'] i']|e' q'|] eqn:Hloop.
  - exfalso. destruct (Z.eq_dec (state l') 0) as [Hs|Hs].
    + rewrite bind_Ret, Hs in H. discriminate H.
    + pose proof (parse_unterminated _ _ _ _ Hloop Hs) as Hp.
      unfold parse in Hp. rewrite Hloop in Hp. congruence.
  - rewrite bind_Throw in H. injection H as -> ->. reflexivity.
  - discriminate H.
Qed.

(** *** The reads inside the loop stay within the vector *)

Lemma at_index_defined (v : list string) (i : Z) :
  (0 <= i < Z.of_nat (List.length v))%Z -> at_index v i <> Undefined.
Proof.
  intros [H0 H1]. unfold at_index.
  replace (0 <=? i)%Z with true by (symmetry; apply Z.leb_le; exact H0).
  replace (i <? Z.of_nat (List.length v))%Z with true
    by (symmetry; apply Z.ltb_lt; exact H1).
  simpl. destruct (nth_error v (Z.to_nat i)) eqn:E; [discriminate|].
  apply nth_error_None in E. lia.
Qed.

Lemma body_defined p l j :
  j < List.length (tokens p) -> consumed_enough l j ->
  match body p l (Z.of_nat j) with
  | Ret (p', l') => tokens p' = tokens p /\ consumed_enough l' (S j)
  | Throw _ _ => True
  | Undefined => False
  end.
Proof.
  intros Hj (H2 & H3 & H4). unfold body.
  rewrite (at_index_nth_error _ _ (nth j (tokens p) ""))
    by (apply nth_error_nth'; exact Hj).
  rewrite bind_Ret.
  pose proof (loop_message_text p (lineNumber l) j (nth j (tokens p) "") Hj)
    as Hmsg.
  body_branches; simpl;
    repeat match goal with
      | H : _ && _ = true |- _ => apply andb_true_iff in H as [? ?]
      | H : (_ =? _)%Z = true |- _ => apply Z.eqb_eq in H
      end;
    try (unfold consumed_enough; simpl; repeat split; intros; lia);
    try (exfalso; eapply at_index_defined; [|eassumption]; lia);
    try congruence; auto.
Qed.

Lemma for_loop_defined n : forall j p l,
  j + n <= List.length (tokens p) -> consumed_enough l j ->
  for_loop n p l (Z.of_nat j) <> Undefined.
Proof.
  induction n as [|n IH]; intros j p l Hlen Hinv; [discriminate|].
  pose proof (body_defined p l j ltac:(lia) Hinv) as Hb.
  simpl for_loop. destruct (body p l (Z.of_nat j)) as [[p' l']|e q|];
    [|discriminate|contradiction].
  destruct Hb as [Ht Hinv']. rewrite bind_Ret. simpl fst. simpl snd.
  replace (Z.of_nat j + 1)%Z with (Z.of_nat (S j)) by lia.
  apply IH; [rewrite Ht; lia|exact Hinv'].
Qed.

(** [parse] reads outside of the vector only after the loop, when the
    final state is not 0. *)
Lemma parse_undefined_only_at_end p :
  parse p = Undefined ->
  exists p' l' i',
    for_loop (List.length (tokens p)) p initial_locals 0 = Ret (p', l', i')
    /\ state l' <> 0%Z.
Proof.
  unfold parse. intros H.
  pose proof (for_loop_defined (List.length (tokens p)) 0 p initial_locals)
    as Hd.
  change (Z.of_nat 0) with 0%Z in Hd.
  destruct (for_loop _ p initial_locals 0) as [[[p' l'] i']|e q|].
  - exists p', l', i'. split; [reflexivity|].
    rewrite bind_Ret in H. intros Hs. rewrite Hs in H. discriminate H.
  - discriminate H.
  - exfalso. apply Hd; [simpl; lia| |reflexivity].
    unfold consumed_enough. simpl. repeat split; discriminate.
Qed.

(** C3, at the failing input [k=]: the loop ends in state 4 with [i] equal to
    the size of the token vector, and the branch that builds the end-of-input
    message reads [tokens[i]], one past the last element, so no [SyntaxError]
    is guaranteed.  The same holds of every token vector that leaves the loop
    in a state other than 0, and this is the only read outside of the
    vector. *)
Theorem dangling_assignment_reads_past_end :
  (forall name,
      tokenize "k=" = ["k"; "="]
      /\ for_loop 2 (with_tokens name ["k"; "="]) initial_locals 0
        = Ret (with_tokens name ["k"; "="],
               {| curSection := ""; state := 4; lineNumber := 1 |}, 2%Z)
      /\ at_index ["k"; "="] 2 = Undefined
      /\ parse (with_tokens name ["k"; "="]) = Undefined
      /\ read (Some "k=") (new_IniParser name) = Undefined)
  /\ (forall p p' l' i',
        for_loop (List.length (tokens p)) p initial_locals 0 = Ret (p', l', i') ->
        state l' <> 0%Z ->
        parse p = Undefined)
  /\ (forall p,
        parse p = Undefined ->
        exists p' l' i',
          for_loop (List.length (tokens p)) p initial_locals 0
          = Ret (p', l', i')
          /\ state l' <> 0%Z).
Proof.
  split; [|split].
  - intros name. repeat split; vm_compute; reflexivity.
  - exact parse_unterminated.
  - exact parse_undefined_only_at_end.
Qed.

Lemma dangling_assignment_reads_past_end_witness :
  parse (with_tokens "config.ini" ["["; "a"]) = Undefined.
Proof.
  apply (proj1 (proj2 dangling_assignment_reads_past_end)
           (with_tokens "config.ini" ["["; "a"])
           (with_tokens "config.ini" ["["; "a"])
           {| curSection := ""; state := 2; lineNumber := 1 |} 2%Z).
  - reflexivity.
  - discriminate.
Defined.

(** C9: the input [[a] followed by a newline raises a [SyntaxError] whose
    message names line 1.  For every token vector, the line number in the
    message of a [SyntaxError] is one plus the number of newline tokens before
    the offending token, whatever these newlines ended: a blank line, an
    assignment, a header or a comment; and while no error occurs, the counter
    after [n] tokens is one plus the number of newline tokens among them. *)
Theorem syntax_error_line_number :
  (forall name,
      thrown (read (Some ("[a" ++ nl)) (new_IniParser name))
      = Some (SyntaxError (message_text name "1" "a" "LF" "")))
  /\ (forall p msg q,
        parse p = Throw (SyntaxError msg) q ->
        exists (k : nat) token,
          nth_error (tokens p) k = Some token
          /\ msg = message_text (fileName p)
                     (to_string (1 + count_newlines (firstn k (tokens p))))
                     (token_before (tokens p) k) (show_token token)
                     (token_after (tokens p) k))
  /\ (forall p (n : nat) p' l' i',
        (n <= List.length (tokens p))%nat ->
        for_loop n p initial_locals 0 = Ret (p', l', i') ->
        lineNumber l' = (1 + count_newlines (firstn n (tokens p)))%Z).
Proof.
  split; [|split].
  - intros name.
    assert (read (Some ("[a" ++ nl)) (new_IniParser name)
            = parse {| internal := ∅; fileName := name;
                       inp := {| chars := ""; eofbit := true; failbit := false |};
                       tokens := ["["; "a"; nl] |}) as -> by reflexivity.
    unfold message_text. cbv -[String.append].
    rewrite !string_app_assoc. reflexivity.
  - intros p msg q H. apply parse_throw_in_loop in H.
    pose proof (for_loop_line_number (List.length (tokens p)) 0 p initial_locals)
      as Hl.
    change (Z.of_nat 0) with 0%Z in Hl. rewrite H in Hl.
    destruct Hl as (k & token & Hk & _ & _ & Hmsg); [simpl; lia|reflexivity|].
    injection Hmsg as ->. exists k, token. split; [exact Hk|reflexivity].
  - intros p n p' l' i' Hn H.
    pose proof (for_loop_line_number n 0 p initial_locals) as Hl.
    change (Z.of_nat 0) with 0%Z in Hl. rewrite H in Hl.
    destruct Hl as (_ & _ & _ & Hl); [simpl; lia|reflexivity|]. exact Hl.
Qed.

(** *** The transitions of the state machine *)

Lemma isIdent_eqb token c :
  isIdent token = true -> reserved c = true -> String.eqb token (str1 c) = false.
Proof.
  intros H Hc. apply String.eqb_neq. intros ->. simpl in H.
  rewrite Hc in H. discriminate H.
Qed.

Lemma isIdent_not_open token : isIdent token = true -> String.eqb token "[" = false.
Proof. intros H. exact (isIdent_eqb token "[" H eq_refl). Qed.

Section Transitions.

Variables (p : IniParser) (l : locals) (i : Z) (token : string).
Hypothesis Htoken : at_index (tokens p) i = Ret token.

Ltac transition Hstate :=
  unfold body; rewrite Htoken, bind_Ret, Hstate;
  repeat match goal with
    | H : at_index _ _ = Ret _ |- _ => rewrite H
    | H : String.eqb _ _ = _ |- _ => rewrite H
    | H : isIdent _ = _ |- _ => rewrite H
    | H : token = _ |- _ => rewrite H
    end;
  reflexivity.

Lemma body_open_bracket :
  state l = 0%Z -> token = "[" -> body p l i = Ret (p, set_state l 1).
Proof. intros Hs Ht. transition Hs. Qed.

Lemma body_section_name :
  state l = 1%Z -> isIdent token = true -> body p l i = Ret (p, set_state l 2).
Proof. intros Hs Ht. transition Hs. Qed.

Lemma body_close_bracket prev :
  state l = 2%Z -> token = "]" -> at_index (tokens p) (i - 1) = Ret prev ->
  body p l i
  = Ret (p, {| curSection := prev; state := 0; lineNumber := lineNumber l |}).
Proof. intros Hs Ht Hp. transition Hs. Qed.

Lemma body_key :
  state l = 0%Z -> isIdent token = true -> body p l i = Ret (p, set_state l 3).
Proof. intros Hs Ht. pose proof (isIdent_not_open _ Ht). transition Hs. Qed.

Lemma body_equals :
  state l = 3%Z -> token = "=" -> body p l i = Ret (p, set_state l 4).
Proof. intros Hs Ht. transition Hs. Qed.

Lemma body_value key :
  state l = 4%Z -> isIdent token = true ->
  at_index (tokens p) (i - 2) = Ret key ->
  body p l i
  = Ret (set_internal p (assign (internal p) (curSection l) key token),
         set_state l 0).
Proof. intros Hs Ht Hk. transition Hs. Qed.

Lemma body_empty_value key :
  state l = 4%Z -> token = nl -> at_index (tokens p) (i - 2) = Ret key ->
  body p l i
  = Ret (set_internal p (assign (internal p) (curSection l) key ""),
         {| curSection := curSection l; state := 0;
            lineNumber := lineNumber l + 1 |}).
Proof. intros Hs Ht Hk. transition Hs. Qed.

Lemma body_semicolon :
  state l = 0%Z -> token = ";" -> body p l i = Ret (p, set_state l 5).
Proof. intros Hs Ht. transition Hs. Qed.

Lemma body_comment :
  state l = 5%Z -> isIdent token = true -> body p l i = Ret (p, set_state l 0).
Proof. intros Hs Ht. transition Hs. Qed.

Lemma body_blank :
  state l = 0%Z -> token = nl ->
  body p l i
  = Ret (p, {| curSection := curSection l; state := 0;
               lineNumber := lineNumber l + 1 |}).
Proof. intros Hs Ht. transition Hs. Qed.

Lemma body_reject_section_name :
  state l = 1%Z -> isIdent token = false ->
  body p l i
  = loop_message p (lineNumber l) i token
    ≫= λ message, Throw (SyntaxError message) p.
Proof. intros Hs Ht. transition Hs. Qed.

Lemma body_reject_equals :
  state l = 0%Z -> token = "=" ->
  body p l i
  = loop_message p (lineNumber l) i "="
    ≫= λ message, Throw (SyntaxError message) p.
Proof. intros Hs Ht. transition Hs. Qed.

End Transitions.

(** *** Running the loop over the lines of a file *)

Lemma for_loop_S n p l i p' l' :
  body p l i = Ret (p', l') ->
  for_loop (S n) p l i = for_loop n p' l' (i + 1).
Proof. intros H. simpl. rewrite H. reflexivity. Qed.

Lemma at_index_after (pre v : list string) (k : nat) x i :
  nth_error v k = Some x ->
  i = (Z.of_nat (List.length pre) + Z.of_nat k)%Z ->
  at_index (pre ++ v)%list i = Ret x.
Proof.
  intros Hk ->. rewrite <- Nat2Z.inj_add. apply at_index_nth_error.
  rewrite nth_error_app2 by lia.
  replace (List.length pre + k - List.length pre)%nat with k by lia. exact Hk.
Qed.

(** The [k]-th token of the line being read. *)
Ltac at_token k :=
  simpl tokens; apply (at_index_after _ _ k); [reflexivity|lia].

(** One line of the grammar, read from state 0, brings the loop back to
    state 0 with the assignment of the line made and the section of the line
    current. *)
Lemma for_loop_line ln n m name s pre rest cur num :
  valid_line ln = true ->
  exists num',
    for_loop (List.length (line_tokens ln) + n)
      {| internal := m; fileName := name; inp := s;
         tokens := (pre ++ line_tokens ln ++ rest)%list |}
      {| curSection := cur; state := 0; lineNumber := num |}
      (Z.of_nat (List.length pre))
    = for_loop n
        {| internal := store_after m (assignments cur [ln]); fileName := name;
           inp := s; tokens := (pre ++ line_tokens ln ++ rest)%list |}
        {| curSection := section_after cur [ln]; state := 0;
           lineNumber := num' |}
        (Z.of_nat (List.length pre + List.length (line_tokens ln))).
Proof.
  intros Hv. destruct ln as [sec|key [value|]| text |]; simpl in Hv.
  - exists num. simpl List.length. simpl Nat.add.
    erewrite for_loop_S
      by (eapply body_open_bracket; [at_token 0%nat|reflexivity|reflexivity]).
    erewrite for_loop_S
      by (eapply body_section_name; [at_token 1%nat|reflexivity|exact Hv]).
    erewrite for_loop_S
      by (eapply body_close_bracket;
          [at_token 2%nat|reflexivity|reflexivity|at_token 1%nat]).
    f_equal. lia.
  - apply andb_true_iff in Hv as [Hk Hv].
    exists (num + 1)%Z. simpl List.length. simpl Nat.add.
    erewrite for_loop_S
      by (eapply body_key; [at_token 0%nat|reflexivity|exact Hk]).
    erewrite for_loop_S
      by (eapply body_equals; [at_token 1%nat|reflexivity|reflexivity]).
    erewrite for_loop_S
      by (eapply body_value;
          [at_token 2%nat|reflexivity|exact Hv|at_token 0%nat]).
    erewrite for_loop_S
      by (eapply body_blank; [at_token 3%nat|reflexivity|reflexivity]).
    f_equal. lia.
  - exists (num + 1)%Z. simpl List.length. simpl Nat.add.
    erewrite for_loop_S
      by (eapply body_key; [at_token 0%nat|reflexivity|exact Hv]).
    erewrite for_loop_S
      by (eapply body_equals; [at_token 1%nat|reflexivity|reflexivity]).
    erewrite for_loop_S
      by (eapply body_empty_value;
          [at_token 2%nat|reflexivity|reflexivity|at_token 0%nat]).
    f_equal. lia.
  - exists num. simpl List.length. simpl Nat.add.
    erewrite for_loop_S
      by (eapply body_semicolon; [at_token 0%nat|reflexivity|reflexivity]).
    erewrite for_loop_S
      by (eapply body_comment; [at_token 1%nat|reflexivity|exact Hv]).
    f_equal. lia.
  - exists (num + 1)%Z. simpl List.length. simpl Nat.add.
    erewrite for_loop_S
      by (eapply body_blank; [at_token 0%nat|reflexivity|reflexivity]).
    f_equal. lia.
Qed.

Lemma store_after_app m l1 l2 :
  store_after m (l1 ++ l2)%list = store_after (store_after m l1) l2.
Proof. unfold store_after. apply fold_left_app. Qed.

Lemma assignments_cons cur ln lines :
  assignments cur (ln :: lines)
  = (assignments cur [ln] ++ assignments (section_after cur [ln]) lines)%list.
Proof. destruct ln; reflexivity. Qed.

Lemma section_after_cons cur ln lines :
  section_after cur (ln :: lines)
  = section_after (section_after cur [ln]) lines.
Proof. destruct ln; reflexivity. Qed.

(** Every file of the grammar is accepted: the loop runs through its tokens
    and ends in state 0, with the assignments of the file made in order. *)
Lemma for_loop_file lines : forall m name s pre cur num,
  forallb valid_line lines = true ->
  exists num',
    for_loop (List.length (file_tokens lines))
      {| internal := m; fileName := name; inp := s;
         tokens := (pre ++ file_tokens lines)%list |}
      {| curSection := cur; state := 0; lineNumber := num |}
      (Z.of_nat (List.length pre))
    = Ret ({| internal := store_after m (assignments cur lines);
              fileName := name; inp := s;
              tokens := (pre ++ file_tokens lines)%list |},
           {| curSection := section_after cur lines; state := 0;
              lineNumber := num' |},
           Z.of_nat (List.length pre + List.length (file_tokens lines))).
Proof.
  induction lines as [|ln lines IH]; intros m name s pre cur num Hv.
  - exists num. simpl. rewrite Nat.add_0_r. reflexivity.
  - simpl in Hv. apply andb_true_iff in Hv as [Hln Hv].
    change (file_tokens (ln :: lines))
      with (line_tokens ln ++ file_tokens lines)%list.
    rewrite length_app.
    destruct (for_loop_line ln (List.length (file_tokens lines)) m name s pre
                (file_tokens lines) cur num Hln) as [num1 ->].
    specialize (IH (store_after m (assignments cur [ln])) name s
                  (pre ++ line_tokens ln)%list (section_after cur [ln]) num1 Hv).
    destruct IH as [num' IH]. exists num'.
    rewrite length_app, <- app_assoc in IH. rewrite IH.
    rewrite (assignments_cons cur ln lines), store_after_app,
      (section_after_cons cur ln lines).
    rewrite Nat.add_assoc. reflexivity.
Qed.

(** [parse] on the tokens of a file of the grammar. *)
Lemma parse_file lines m name s :
  forallb valid_line lines = true ->
  parse {| internal := m; fileName := name; inp := s;
           tokens := file_tokens lines |}
  = Ret {| internal := store_after m (assignments "" lines); fileName := name;
           inp := s; tokens := file_tokens lines |}.
Proof.
  intros Hv. unfold parse. simpl tokens.
  destruct (for_loop_file lines m name s [] "" 1%Z Hv) as [num' H].
  cbn [app List.length Nat.add] in H. change (Z.of_nat 0) with 0%Z in H.
  unfold initial_locals. rewrite H. reflexivity.
Qed.

(** *** Reading the store *)

Lemma get_value p section key :
  fst (get p section key)
  = default "" (default ∅ (internal p !! section) !! key).
Proof. reflexivity. Qed.

Lemma assign_lookup m s k v section key :
  default ∅ (assign m s k v !! section) !! key
  = if String.eqb s section && String.eqb k key then Some v
    else default ∅ (m !! section) !! key.
Proof.
  unfold assign. destruct (String.eqb s section) eqn:Es.
  - apply String.eqb_eq in Es. subst section. rewrite lookup_insert_eq. simpl.
    destruct (String.eqb k key) eqn:Ek.
    + apply String.eqb_eq in Ek. subst key. apply lookup_insert_eq.
    + apply String.eqb_neq in Ek. apply lookup_insert_ne. exact Ek.
  - apply String.eqb_neq in Es. rewrite lookup_insert_ne by exact Es.
    reflexivity.
Qed.

(** After a list of assignments the store holds the last value assigned to a
    section and key, or what it held before when there is none. *)
Lemma store_after_lookup l : forall m section key,
  default ∅ (store_after m l !! section) !! key
  = match last_value l section key with
    | Some v => Some v
    | None => default ∅ (m !! section) !! key
    end.
Proof.
  induction l as [|[[s k] v] l IH]; intros m section key; [reflexivity|].
  change (store_after m ((s, k, v) :: l)) with (store_after (assign m s k v) l).
  rewrite IH. simpl. destruct (last_value l section key); [reflexivity|].
  rewrite assign_lookup.
  destruct (String.eqb s section && String.eqb k key); reflexivity.
Qed.

(** *** Files given as text *)

Lemma find_first_not_of_pad pad x :
  all_chars is_ws pad = true ->
  find_first_not_of whitespace (pad ++ x)
  = option_map (Nat.add (String.length pad)) (find_first_not_of whitespace x).
Proof.
  intros Hp. induction pad as [|c pad IH].
  - change ("" ++ x) with x. destruct (find_first_not_of whitespace x);
      reflexivity.
  - simpl in Hp. apply andb_true_iff in Hp as [Hc Hp]. unfold is_ws in Hc.
    change (String c pad ++ x) with (String c (pad ++ x)). simpl.
    rewrite Hc, IH by exact Hp.
    destruct (find_first_not_of whitespace x); reflexivity.
Qed.

Lemma find_last_not_of_app set x y :
  find_last_not_of set (x ++ y)
  = match find_last_not_of set y with
    | Some j => Some (String.length x + j)
    | None => find_last_not_of set x
    end.
Proof.
  induction x as [|c x IH].
  - change ("" ++ y) with y. destruct (find_last_not_of set y); reflexivity.
  - change (String c x ++ y) with (String c (x ++ y)). simpl. rewrite IH.
    destruct (find_last_not_of set y); reflexivity.
Qed.

Lemma find_last_not_of_pad pad :
  all_chars is_ws pad = true -> find_last_not_of whitespace pad = None.
Proof.
  intros Hp. induction pad as [|c pad IH]; [reflexivity|].
  simpl in Hp. apply andb_true_iff in Hp as [Hc Hp]. unfold is_ws in Hc.
  simpl. rewrite IH, Hc by exact Hp. reflexivity.
Qed.

Lemma find_last_not_of_trimmed s :
  s <> "" -> ends_ws s = false ->
  find_last_not_of whitespace s = Some (String.length s - 1).
Proof.
  induction s as [|c s IH]; [congruence|]. intros _ He.
  destruct s as [|d s].
  - simpl in *. unfold is_ws in He. rewrite He. reflexivity.
  - rewrite ends_ws_cons in He by discriminate.
    specialize (IH ltac:(discriminate) He).
    change (find_last_not_of whitespace (String c (String d s)))
      with (match find_last_not_of whitespace (String d s) with
            | Some j => Some (S j)
            | None => if mem_char c whitespace then None else Some 0
            end).
    rewrite IH. simpl. rewrite Nat.sub_0_r. reflexivity.
Qed.

Lemma substring_prefix b c :
  substring 0 (String.length b) (b ++ c) = b.
Proof.
  induction b as [|x b IH].
  - change ("" ++ c) with c. destruct c; reflexivity.
  - change (String x b ++ c) with (String x (b ++ c)). simpl. rewrite IH.
    reflexivity.
Qed.

Lemma substring_middle a b c :
  substring (String.length a) (String.length b) (a ++ b ++ c) = b.
Proof.
  induction a as [|x a IH].
  - change ("" ++ b ++ c) with (b ++ c). apply substring_prefix.
  - change (String x a ++ b ++ c) with (String x (a ++ b ++ c)). simpl.
    exact IH.
Qed.

Lemma all_chars_impl (f g : ascii -> bool) s :
  (forall c, f c = true -> g c = true) ->
  all_chars f s = true -> all_chars g s = true.
Proof.
  intros Hfg. induction s as [|c s IH]; [reflexivity|]. simpl.
  intros H. apply andb_true_iff in H as [Hc Hs].
  rewrite (Hfg c Hc), (IH Hs). reflexivity.
Qed.

Lemma blank_pad_ws w : blank_pad w = true -> all_chars is_ws w = true.
Proof.
  apply all_chars_impl. intros c H. apply andb_true_iff in H as [H _]. exact H.
Qed.

Lemma blank_pad_no_reserved w : blank_pad w = true -> no_reserved w = true.
Proof.
  apply all_chars_impl. intros c H. apply andb_true_iff in H as [_ H]. exact H.
Qed.

Lemma valid_field_parts f :
  valid_field f = true ->
  blank_pad (pad_left f) = true /\ blank_pad (pad_right f) = true
  /\ ident f <> "" /\ no_reserved (ident f) = true
  /\ starts_ws (ident f) = false /\ ends_ws (ident f) = false.
Proof.
  unfold valid_field, identifier_token. rewrite !andb_true_iff.
  rewrite !negb_true_iff. intros [[[Hl Hr] Hne] [[Hn Hs] He]].
  repeat split; try assumption. apply String.eqb_neq. exact Hne.
Qed.

(** Trimming the text of a field gives its identifier. *)
Lemma trimWS_field f : valid_field f = true -> trimWS (field_text f) = ident f.
Proof.
  intros Hf. apply valid_field_parts in Hf as (Hl & Hr & Hne & _ & Hs & He).
  unfold trimWS, field_text.
  rewrite find_first_not_of_pad by (apply blank_pad_ws; exact Hl).
  rewrite find_last_not_of_app, find_last_not_of_app.
  rewrite find_last_not_of_pad by (apply blank_pad_ws; exact Hr).
  rewrite find_last_not_of_trimmed by assumption.
  destruct (ident f) as [|c r] eqn:Hid; [congruence|].
  simpl in Hs. unfold is_ws in Hs.
  change (String c r ++ pad_right f) with (String c (r ++ pad_right f)).
  simpl find_first_not_of. rewrite Hs. simpl option_map.
  change (String c (r ++ pad_right f)) with (String c r ++ pad_right f).
  cbv iota.
  match goal with
  | |- substring ?n ?m _ = _ =>
      replace m with (String.length (String c r)) by (simpl; lia);
      replace n with (String.length (pad_left f)) by lia
  end.
  apply substring_middle.
Qed.

Lemma field_text_no_reserved f :
  valid_field f = true -> no_reserved (field_text f) = true.
Proof.
  intros Hf. apply valid_field_parts in Hf as (Hl & Hr & _ & Hn & _ & _).
  unfold field_text, no_reserved. rewrite !all_chars_append.
  apply blank_pad_no_reserved in Hl, Hr. unfold no_reserved in *.
  rewrite Hl, Hr, Hn. reflexivity.
Qed.

Lemma field_text_nonempty f : valid_field f = true -> field_text f <> "".
Proof.
  intros Hf. apply valid_field_parts in Hf as (_ & _ & Hne & _).
  unfold field_text. intros H.
  destruct (pad_left f); [|discriminate H].
  destruct (ident f); [congruence|discriminate H].
Qed.

Lemma accumulate_all cs t :
  no_reserved cs = true -> accumulate cs t = (t ++ cs, ("", true)).
Proof.
  revert t. induction cs as [|c r IH]; intros t H.
  - simpl. rewrite string_app_empty_r. reflexivity.
  - unfold no_reserved in H. simpl in H. apply andb_true_iff in H as [Hc Hr].
    apply negb_true_iff in Hc. simpl. rewrite Hc, IH by exact Hr.
    rewrite string_app_assoc. reflexivity.
Qed.

(** A run without reserved characters that is all there is gives one token,
    unless it trims to nothing. *)
Lemma tokenize_single_run x :
  x <> "" -> no_reserved x = true -> tokenize x = push_token [] (trimWS x).
Proof.
  intros Hne Hx. destruct x as [|c r]; [congruence|].
  unfold no_reserved in Hx. simpl in Hx. apply andb_true_iff in Hx as [Hc Hr].
  apply negb_true_iff in Hc.
  rewrite tokenize_run by exact Hc. rewrite accumulate_all by exact Hr.
  simpl fst. simpl snd. rewrite tokenize_empty, app_nil_r. reflexivity.
Qed.

(** The text of a field, up to a reserved character or to the end, gives the
    identifier of the field as one token. *)
Lemma tokenize_field f rest :
  valid_field f = true -> at_boundary rest = true ->
  tokenize (field_text f ++ rest) = ident f :: tokenize rest.
Proof.
  intros Hf Hr.
  assert (tokenize (field_text f) = [ident f]) as Hone.
  { rewrite tokenize_single_run
      by (apply field_text_nonempty || apply field_text_no_reserved; exact Hf).
    rewrite trimWS_field by exact Hf.
    apply valid_field_parts in Hf as (_ & _ & Hne & _).
    unfold push_token, NUL_literal.
    apply String.eqb_neq in Hne. rewrite Hne. reflexivity. }
  destruct rest as [|a y].
  - rewrite string_app_empty_r, Hone. reflexivity.
  - simpl in Hr. rewrite tokenize_reserved_middle by exact Hr.
    rewrite Hone, (tokenize_reserved a y) by exact Hr. reflexivity.
Qed.






(** [read] of a text whose tokens are the lines of a file of the grammar. *)
Lemma read_file_tokens name content lines :
  forallb valid_line lines = true ->
  tokenize content = file_tokens lines ->
  exists s,
    read (Some content) (new_IniParser name)
    = Ret {| internal := store_after ∅ (assignments "" lines);
             fileName := name; inp := s; tokens := file_tokens lines |}.
Proof.
  intros Hv Htok. unfold read, tokenize in *. simpl failbit. cbv iota.
  simpl tokens.
  destruct (read_loop (open_stream content) []) as [s ts]. simpl in Htok.
  subst ts. unfold set_tokens, set_inp, new_IniParser. simpl.
  rewrite (parse_file lines ∅ name s Hv). exists s. reflexivity.
Qed.




(** * Empty tokens *)

Lemma tokenize_no_empty content : ~ In "" (tokenize content).
Proof.
  assert (Forall (fun t => t <> "") (tokenize content)) as H.
  { apply read_loop_Forall; [|constructor]. intros s Hs. exact Hs. }
  rewrite Forall_forall in H. intros Hin.
  apply (H ""); [apply list_elem_of_In; exact Hin|reflexivity].
Qed.

Lemma getToken_blank_run w rest f :
  blank_run w = true -> at_boundary rest = true ->
  getToken {| chars := w ++ rest; eofbit := false; failbit := f |}
  = ("", {| chars := rest; eofbit := String.eqb rest ""; failbit := f |}).
Proof.
  unfold blank_run. intros Hw Hr. apply andb_true_iff in Hw as [Hne Hw].
  destruct w as [|c w]; [discriminate Hne|].
  pose proof Hw as Hw'. simpl in Hw'. apply andb_true_iff in Hw' as [Hc Hw'].
  apply andb_true_iff in Hc as [_ Hc]. apply negb_true_iff in Hc.
  change (String c w ++ rest) with (String c (w ++ rest)).
  rewrite getToken_run by exact Hc.
  rewrite accumulate_blank by assumption. simpl fst. simpl snd.
  change (str1 c ++ w) with (String c w).
  rewrite trimWS_blank by exact Hw. reflexivity.
Qed.

Lemma tokenize_blank_run w rest :
  blank_run w = true -> at_boundary rest = true ->
  tokenize (w ++ rest) = tokenize rest.
Proof.
  intros Hw Hr. unfold tokenize, open_stream.
  rewrite read_loop_equation_2, getToken_blank_run by assumption.
  simpl fst. simpl snd. change (push_token [] "") with (@nil string).
  destruct rest as [|a y]; reflexivity.
Qed.

(** C8, the defect: for a run of blanks between two reserved characters, or
    between a reserved character and the end of the stream, [getToken]
    returns the empty identifier, as the specification has it, but [read]
    does not append it.  The guard of [read] is written against the marker
    that [getToken] returns at the end of the file, the literal ["\0"];
    converted to a [std::string] that literal is the empty string, so the
    guard takes the empty identifier for the marker.  On [k= ] followed by a
    newline the token sequence is [k], [=], newline, where the specification
    has an empty token before the newline; no token of any input is empty,
    and a run of blanks after a reserved character leaves the token sequence
    as it is without the run. *)
Theorem blank_run_token_is_dropped :
  NUL_literal = ""
  /\ (forall e f,
        getToken {| chars := ""; eofbit := e; failbit := f |}
        = (NUL_literal, {| chars := ""; eofbit := true; failbit := f |}))
  /\ (forall w rest f,
        blank_run w = true -> at_boundary rest = true ->
        getToken {| chars := w ++ rest; eofbit := false; failbit := f |}
        = ("", {| chars := rest; eofbit := String.eqb rest ""; failbit := f |}))
  /\ (forall ts, push_token ts "" = ts)
  /\ tokenize ("k=" ++ " " ++ nl) = ["k"; "="; nl]
  /\ (forall content, ~ In "" (tokenize content))
  /\ (forall pre a w rest,
        reserved a = true -> blank_run w = true -> at_boundary rest = true ->
        tokenize (pre ++ String a (w ++ rest))
        = tokenize (pre ++ String a rest)).
Proof.
  split; [reflexivity|].
  split; [intros e f; apply getToken_at_end|].
  split; [exact getToken_blank_run|].
  split; [reflexivity|].
  split; [vm_compute; reflexivity|].
  split; [exact tokenize_no_empty|].
  intros pre a w rest Ha Hw Hr.
  rewrite !tokenize_reserved_middle by exact Ha.
  rewrite tokenize_blank_run by assumption. reflexivity.
Qed.

Lemma blank_run_token_is_dropped_witness :
  getToken {| chars := " " ++ nl; eofbit := false; failbit := false |}
  = ("", {| chars := nl; eofbit := false; failbit := false |})
  /\ tokenize ("k" ++ String "=" (" " ++ nl)) = tokenize ("k" ++ String "=" nl).
Proof.
  split.
  - exact (proj1 (proj2 (proj2 blank_run_token_is_dropped))
             " " nl false eq_refl eq_refl).
  - exact (proj2 (proj2 (proj2 (proj2 (proj2 (proj2
             blank_run_token_is_dropped)))))
             "k" "="%char " " nl eq_refl eq_refl eq_refl).
Defined.

(** * Empty identifiers *)

Lemma read_new_object name content :
  read (Some content) (new_IniParser name)
  = parse {| internal := ∅; fileName := name;
             inp := fst (read_loop (open_stream content) []);
             tokens := tokenize content |}.
Proof.
  unfold read, tokenize. simpl failbit. cbv iota. simpl tokens.
  destruct (read_loop (open_stream content) []) as [s ts]. reflexivity.
Qed.

(** An input that begins with [[]] is rejected at the closing bracket. *)
Lemma read_empty_brackets name rest :
  thrown (read (Some ("[]" ++ rest)) (new_IniParser name))
  = Some (SyntaxError
            (message_text name "1" "[" "]" (nth 0 (tokenize rest) ""))).
Proof.
  rewrite read_new_object.
  change ("[]" ++ rest) with (String "[" (String "]" rest)).
  rewrite !tokenize_reserved by reflexivity.
  set (s := fst (read_loop _ _)). set (ts := tokenize rest).
  unfold parse. simpl tokens. simpl List.length. unfold initial_locals.
  erewrite for_loop_S
    by (eapply body_open_bracket;
        [apply (at_index_nth_error _ 0); reflexivity|reflexivity|reflexivity]).
  simpl for_loop.
  erewrite body_reject_section_name
    by (try apply (at_index_nth_error _ 1); reflexivity).
  change (0 + 1)%Z with (Z.of_nat 1).
  rewrite loop_message_text by (simpl; lia).
  reflexivity.
Qed.

(** An input that begins with [=] is rejected there. *)
Lemma read_empty_key name rest :
  thrown (read (Some ("=" ++ rest)) (new_IniParser name))
  = Some (SyntaxError
            (message_text name "1" "" "=" (nth 0 (tokenize rest) ""))).
Proof.
  rewrite read_new_object.
  change ("=" ++ rest) with (String "=" rest).
  rewrite !tokenize_reserved by reflexivity.
  set (s := fst (read_loop _ _)). set (ts := tokenize rest).
  unfold parse. simpl tokens. simpl List.length. unfold initial_locals.
  simpl for_loop.
  erewrite body_reject_equals
    by (try apply (at_index_nth_error _ 0); reflexivity).
  change 0%Z with (Z.of_nat 0).
  rewrite loop_message_text by (simpl; lia).
  reflexivity.
Qed.

(** C4, amended: [isIdent] accepts the empty string, so [parse], given a token
    vector with an empty token where an identifier is expected, takes it as a
    section name or as a key.  But the tokenizer starts no identifier between
    two reserved characters that follow each other, nor before a reserved
    character at the start of the input: the tokens of [[]] are [[] and []],
    and every input that begins with [[]] or with [=] raises a [SyntaxError]
    at line 1. *)
Theorem empty_identifier_only_in_parse :
  isIdent "" = true
  /\ (forall name,
        store_of (parse (with_tokens name
                           ["["; "a"; "]"; "["; ""; "]"; "k"; "="; "v"]))
        = Some {[ "" := {[ "k" := "v" ]} ]})
  /\ (forall name,
        store_of (parse (with_tokens name [""; "="; "v"]))
        = Some {[ "" := {[ "" := "v" ]} ]})
  /\ (forall x a b y,
        reserved a = true -> reserved b = true ->
        tokenize (x ++ String a (String b y))
        = (tokenize x ++ str1 a :: str1 b :: tokenize y)%list)
  /\ (forall a y,
        reserved a = true -> tokenize (String a y) = str1 a :: tokenize y)
  /\ (forall name rest,
        thrown (read (Some ("[]" ++ rest)) (new_IniParser name))
        = Some (SyntaxError
                  (message_text name "1" "[" "]" (nth 0 (tokenize rest) ""))))
  /\ (forall name rest,
        thrown (read (Some ("=" ++ rest)) (new_IniParser name))
        = Some (SyntaxError
                  (message_text name "1" "" "=" (nth 0 (tokenize rest) "")))).
Proof.
  split; [reflexivity|].
  split; [intros name; vm_compute; reflexivity|].
  split; [intros name; vm_compute; reflexivity|].
  split.
  { intros x a b y Ha Hb. rewrite tokenize_reserved_middle by exact Ha.
    rewrite tokenize_reserved by exact Hb. reflexivity. }
  split; [intros a y Ha; apply tokenize_reserved; exact Ha|].
  split; [exact read_empty_brackets|exact read_empty_key].
Qed.

Lemma empty_identifier_only_in_parse_witness :
  tokenize ("k" ++ String "=" (String LF "v"))
  = (tokenize "k" ++ str1 "=" :: str1 LF :: tokenize "v")%list
  /\ tokenize (String "=" "v") = str1 "=" :: tokenize "v".
Proof.
  split.
  - exact (proj1 (proj2 (proj2 (proj2 empty_identifier_only_in_parse)))
             "k" "="%char LF "v" eq_refl eq_refl).
  - exact (proj1 (proj2 (proj2 (proj2 (proj2 empty_identifier_only_in_parse))))
             "="%char "v" eq_refl).
Defined.

Lemma syntax_error_line_number_witness :
  parse (with_tokens "config.ini" ["k"; "="; "v"; nl; nl; "["; "a"; nl])
  = Throw (SyntaxError (message_text "config.ini" "3" "a" "LF" ""))
      (set_internal (with_tokens "config.ini" ["k"; "="; "v"; nl; nl; "["; "a"; nl])
         {[ "" := {[ "k" := "v" ]} ]})
  /\ exists (k : nat) token,
      nth_error ["k"; "="; "v"; nl; nl; "["; "a"; nl] k = Some token
      /\ message_text "config.ini" "3" "a" "LF" ""
         = message_text "config.ini"
             (to_string
                (1 + count_newlines
                       (firstn k ["k"; "="; "v"; nl; nl; "["; "a"; nl])))
             (token_before ["k"; "="; "v"; nl; nl; "["; "a"; nl] k)
             (show_token token)
             (token_after ["k"; "="; "v"; nl; nl; "["; "a"; nl] k).
Proof.
  assert (parse (with_tokens "config.ini" ["k"; "="; "v"; nl; nl; "["; "a"; nl])
          = Throw (SyntaxError (message_text "config.ini" "3" "a" "LF" ""))
              (set_internal
                 (with_tokens "config.ini" ["k"; "="; "v"; nl; nl; "["; "a"; nl])
                 {[ "" := {[ "k" := "v" ]} ]})) as H
    by (vm_compute; reflexivity).
  split; [exact H|].
  exact (proj1 (proj2 syntax_error_line_number) _ _ _ H).
Defined.

(** * Further properties *)

(** ** [trimWS] *)

Lemma find_first_not_of_none s :
  find_first_not_of whitespace s = None -> all_chars is_ws s = true.
Proof.
  induction s as [|c s IH]; [reflexivity|]. simpl. unfold is_ws.
  destruct (mem_char c whitespace); [|discriminate].
  destruct (find_first_not_of whitespace s); [discriminate|].
  intros _. apply IH. reflexivity.
Qed.

Lemma find_last_not_of_none s :
  find_last_not_of whitespace s = None -> all_chars is_ws s = true.
Proof.
  induction s as [|c s IH]; [reflexivity|]. simpl. unfold is_ws.
  destruct (find_last_not_of whitespace s); [discriminate|].
  destruct (mem_char c whitespace); [|discriminate].
  intros _. apply IH. reflexivity.
Qed.

(** Up to the position that [find_first_not_of] finds there is whitespace
    only. *)
Lemma find_first_not_of_split s i :
  find_first_not_of whitespace s = Some i ->
  exists a r,
    s = a ++ r /\ String.length a = i /\ all_chars is_ws a = true
    /\ starts_ws r = false /\ r <> "".
Proof.
  revert i. induction s as [|c s IH]; intros i; simpl; [discriminate|].
  destruct (mem_char c whitespace) eqn:Hc.
  - destruct (find_first_not_of whitespace s) as [k|]; [|discriminate].
    intros [= <-]. destruct (IH k eq_refl) as (a & r & -> & Ha & Hws & Hr & Hne).
    exists (String c a), r. repeat split; try assumption.
    + simpl. rewrite Ha. reflexivity.
    + simpl. unfold is_ws at 1. rewrite Hc. exact Hws.
  - intros [= <-]. exists "", (String c s). repeat split; try reflexivity.
    + exact Hc.
    + discriminate.
Qed.

(** After the position that [find_last_not_of] finds there is whitespace
    only. *)
Lemma find_last_not_of_split s j :
  find_last_not_of whitespace s = Some j ->
  exists t b,
    s = t ++ b /\ String.length t = S j /\ all_chars is_ws b = true
    /\ ends_ws t = false.
Proof.
  revert j. induction s as [|c s IH]; intros j; simpl; [discriminate|].
  destruct (find_last_not_of whitespace s) as [k|] eqn:Hk.
  - intros [= <-].
    destruct (IH k eq_refl) as (t & b & -> & Ht & Hb & He).
    exists (String c t), b. repeat split; try assumption.
    + simpl. rewrite Ht. reflexivity.
    + rewrite ends_ws_cons; [exact He|]. destruct t; [discriminate Ht|discriminate].
  - destruct (mem_char c whitespace) eqn:Hc; [discriminate|].
    intros [= <-]. exists (str1 c), s. repeat split; try reflexivity.
    + apply find_last_not_of_none. exact Hk.
    + exact Hc.
Qed.

(** What [trimWS] returns when the string holds a character that is not
    whitespace: the part between the leading and the trailing whitespace. *)
Lemma trimWS_split s i :
  find_first_not_of whitespace s = Some i ->
  exists a t b,
    s = a ++ t ++ b /\ trimWS s = t /\ t <> ""
    /\ all_chars is_ws a = true /\ all_chars is_ws b = true
    /\ starts_ws t = false /\ ends_ws t = false.
Proof.
  intros Hi. destruct (find_first_not_of_split s i Hi)
    as (a & r & -> & Ha & Hwa & Hr & Hne).
  destruct (find_last_not_of whitespace r) as [j|] eqn:Hj.
  - destruct (find_last_not_of_split r j Hj) as (t & b & -> & Ht & Hwb & He).
    exists a, t, b. repeat split; try assumption.
    + unfold trimWS. rewrite Hi, find_last_not_of_app, Hj.
      replace (String.length a + j - i + 1) with (String.length t) by lia.
      rewrite <- Ha. apply substring_middle.
    + destruct t; [discriminate Ht|discriminate].
    + destruct t as [|x t]; [discriminate Ht|]. exact Hr.
  - exfalso. apply find_last_not_of_none in Hj.
    destruct r as [|x r]; [congruence|]. simpl in *.
    rewrite Hr in Hj. discriminate Hj.
Qed.

Lemma trimWS_shape s :
  exists a b,
    s = a ++ trimWS s ++ b
    /\ all_chars is_ws a = true /\ all_chars is_ws b = true
    /\ starts_ws (trimWS s) = false /\ ends_ws (trimWS s) = false.
Proof.
  destruct (find_first_not_of whitespace s) as [i|] eqn:Hi.
  - destruct (trimWS_split s i Hi) as (a & t & b & Hs & Ht & _ & Ha & Hb & H1 & H2).
    exists a, b. rewrite Ht. auto.
  - exists s, "". unfold trimWS. rewrite Hi.
    change ("" ++ "") with "". rewrite string_app_empty_r.
    repeat split; try reflexivity. apply find_first_not_of_none. exact Hi.
Qed.

(** X1: [trimWS] removes whitespace from the two ends and nothing else: every
    string is whitespace, then its trimmed form, then whitespace; and the
    trimmed form neither begins nor ends with whitespace. *)
Theorem trimWS_removes_only_surrounding_whitespace (s : string) :
  exists a b,
    s = a ++ trimWS s ++ b
    /\ all_chars is_ws a = true /\ all_chars is_ws b = true
    /\ starts_ws (trimWS s) = false /\ ends_ws (trimWS s) = false.
Proof. exact (trimWS_shape s). Qed.

(** A string with no whitespace at its ends is left as it is. *)
Lemma trimWS_fixed t :
  starts_ws t = false -> ends_ws t = false -> trimWS t = t.
Proof.
  intros Hs He. destruct t as [|c r]; [reflexivity|].
  unfold trimWS. rewrite find_last_not_of_trimmed by (discriminate || exact He).
  simpl in Hs. unfold is_ws in Hs. simpl find_first_not_of. rewrite Hs.
  replace (String.length (String c r) - 1 - 0 + 1)
    with (String.length (String c r)) by (simpl; lia).
  rewrite <- (string_app_empty_r (String c r)) at 2.
  apply substring_prefix.
Qed.

(** X2: [trimWS] is idempotent; it returns its argument exactly when the
    argument has no whitespace at either end; and it returns the empty string
    exactly when the argument holds nothing but whitespace. *)
Theorem trimWS_idempotent_and_fixed_points (s : string) :
  trimWS (trimWS s) = trimWS s
  /\ (trimWS s = s <-> starts_ws s = false /\ ends_ws s = false)
  /\ (trimWS s = "" <-> all_chars is_ws s = true).
Proof.
  destruct (trimWS_shape s) as (a & b & _ & _ & _ & Hs & He).
  split; [apply trimWS_fixed; assumption|]. split.
  - split.
    + intros H. rewrite H in Hs, He. auto.
    + intros [H1 H2]. apply trimWS_fixed; assumption.
  - split.
    + intros H. destruct (find_first_not_of whitespace s) as [i|] eqn:Hi.
      * destruct (trimWS_split s i Hi) as (_ & t & _ & _ & Ht & Hne & _).
        congruence.
      * apply find_first_not_of_none. exact Hi.
    + intros H. unfold trimWS.
      pose proof (find_first_not_of_pad s "" H) as Hf.
      rewrite string_app_empty_r in Hf. rewrite Hf. reflexivity.
Qed.

(** ** The tokenizer *)

(** What a run collects: the characters up to the first reserved one. *)
Lemma accumulate_split cs : forall t,
  exists run,
    fst (accumulate cs t) = t ++ run
    /\ cs = run ++ fst (snd (accumulate cs t))
    /\ no_reserved run = true
    /\ at_boundary (fst (snd (accumulate cs t))) = true.
Proof.
  induction cs as [|c r IH]; intros t.
  - exists "". simpl. rewrite string_app_empty_r. auto.
  - simpl. destruct (reserved c) eqn:Hc.
    + exists "". simpl. rewrite string_app_empty_r, Hc. auto.
    + destruct (IH (t ++ str1 c)) as (run & H1 & H2 & H3 & H4).
      exists (String c run). rewrite H1, string_app_assoc.
      repeat split; try assumption.
      * change (String c run ++ fst (snd (accumulate r (t ++ str1 c))))
          with (String c (run ++ fst (snd (accumulate r (t ++ str1 c))))).
        rewrite <- H2. reflexivity.
      * unfold no_reserved in *. simpl. rewrite Hc, H3. reflexivity.
Qed.

(** X3: a reserved character separates the tokens before it from the tokens
    after it, so a text is tokenized piece by piece; in particular line by
    line. *)
Theorem tokenize_splits_at_reserved (x y : string) (a : ascii) :
  reserved a = true ->
  tokenize (x ++ String a y) = (tokenize x ++ str1 a :: tokenize y)%list.
Proof. apply tokenize_reserved_middle. Qed.

Lemma tokenize_splits_at_reserved_witness :
  tokenize ("[a]" ++ String LF "b=c")
  = (tokenize "[a]" ++ str1 LF :: tokenize "b=c")%list.
Proof. apply tokenize_splits_at_reserved. reflexivity. Defined.

Lemma symbol_token_trimWS t :
  no_reserved t = true -> symbol_token (trimWS t) = false.
Proof.
  intros Ht. pose proof (trimWS_identifier t Ht) as H.
  unfold identifier_token in H. apply andb_true_iff in H as [H _].
  apply andb_true_iff in H as [H _].
  destruct (trimWS t) as [|c [|d r]]; try reflexivity.
  unfold no_reserved in H. simpl in H. rewrite andb_true_r in H.
  apply negb_true_iff in H. exact H.
Qed.

Lemma reserved_chars_app a b :
  reserved_chars (a ++ b) = (reserved_chars a ++ reserved_chars b)%list.
Proof.
  induction a as [|c a IH]; [reflexivity|].
  change (String c a ++ b) with (String c (a ++ b)). simpl.
  destruct (reserved c); rewrite IH; reflexivity.
Qed.

Lemma reserved_chars_none a : no_reserved a = true -> reserved_chars a = [].
Proof.
  induction a as [|c a IH]; [reflexivity|]. unfold no_reserved. simpl.
  intros H. apply andb_true_iff in H as [Hc Ha]. apply negb_true_iff in Hc.
  rewrite Hc. apply IH. exact Ha.
Qed.

Lemma push_token_symbols t :
  no_reserved t = true ->
  List.filter (fun x => symbol_token x) (push_token [] (trimWS t)) = [].
Proof.
  intros Ht. unfold push_token, push_back.
  destruct (negb (String.eqb (trimWS t) NUL_literal)); [|reflexivity].
  change (List.filter (fun x => symbol_token x) ([] ++ [trimWS t]))
    with (if symbol_token (trimWS t) then [trimWS t] else []).
  rewrite symbol_token_trimWS by exact Ht. reflexivity.
Qed.

(** X4: the tokenizer neither drops nor invents a reserved symbol: the symbol
    tokens of the sequence are the reserved characters of the input, in
    order. *)
Theorem tokenize_keeps_reserved_symbols (s : string) :
  List.filter (fun t => symbol_token t) (tokenize s)
  = List.map str1 (reserved_chars s).
Proof.
  remember (S (String.length s)) as n eqn:Hn.
  assert (String.length s < n) as Hlt by lia. clear Hn.
  revert s Hlt. induction n as [|n IH]; intros s Hlt; [lia|].
  destruct s as [|c r]; [reflexivity|]. simpl in Hlt.
  destruct (reserved c) eqn:Hc.
  - rewrite tokenize_reserved by exact Hc. simpl. rewrite Hc.
    rewrite IH by lia. reflexivity.
  - rewrite tokenize_run by exact Hc. simpl reserved_chars. rewrite Hc.
    destruct (accumulate_split r (str1 c)) as (run & H1 & H2 & H3 & H4).
    pose proof (accumulate_rest_length r (str1 c)) as Hlen.
    rewrite List.filter_app, push_token_symbols
      by (apply accumulate_no_reserved; unfold no_reserved; simpl;
          rewrite Hc; reflexivity).
    remember (fst (snd (accumulate r (str1 c)))) as rest eqn:Hrest.
    clear Hrest. simpl. rewrite IH by lia. rewrite H2.
    rewrite reserved_chars_app, (reserved_chars_none run) by exact H3.
    reflexivity.
Qed.

Lemma alternating_cons_symbol a ts :
  symbol_token a = true -> alternating ts = true -> alternating (a :: ts) = true.
Proof.
  intros Ha Hts. destruct ts as [|b r]; [reflexivity|].
  change (alternating (a :: b :: r))
    with ((symbol_token a || symbol_token b) && alternating (b :: r)).
  rewrite Ha, Hts. reflexivity.
Qed.

(** After the end of a run, the next token, if there is one, is a symbol. *)
Lemma tokenize_at_boundary rest :
  at_boundary rest = true ->
  match tokenize rest with
  | [] => True
  | b :: _ => symbol_token b = true
  end.
Proof.
  destruct rest as [|a y]; [intros _; exact I|]. simpl. intros Ha.
  rewrite tokenize_reserved by exact Ha. exact Ha.
Qed.

Lemma alternating_cons_boundary t rest :
  at_boundary rest = true -> alternating (tokenize rest) = true ->
  alternating (t :: tokenize rest) = true.
Proof.
  intros Hb Halt. pose proof (tokenize_at_boundary rest Hb) as H.
  destruct (tokenize rest) as [|b r]; [reflexivity|].
  change (alternating (t :: b :: r))
    with ((symbol_token t || symbol_token b) && alternating (b :: r)).
  rewrite H, Halt, orb_true_r. reflexivity.
Qed.

Lemma tokenize_alternating s : alternating (tokenize s) = true.
Proof.
  remember (S (String.length s)) as n eqn:Hn.
  assert (String.length s < n) as Hlt by lia. clear Hn.
  revert s Hlt. induction n as [|n IH]; intros s Hlt; [lia|].
  destruct s as [|c r]; [reflexivity|]. simpl in Hlt.
  destruct (reserved c) eqn:Hc.
  - rewrite tokenize_reserved by exact Hc.
    apply alternating_cons_symbol; [exact Hc|apply IH; lia].
  - rewrite tokenize_run by exact Hc.
    destruct (accumulate_split r (str1 c)) as (run & _ & _ & _ & H4).
    pose proof (accumulate_rest_length r (str1 c)) as Hlen.
    unfold push_token, push_back.
    destruct (negb (String.eqb _ NUL_literal)).
    + apply alternating_cons_boundary; [exact H4|apply IH; lia].
    + apply IH. lia.
Qed.

(** X5: two identifier tokens never follow each other in the token sequence:
    between two identifiers there is always a reserved symbol. *)
Theorem tokenize_identifiers_are_separated (s : string) :
  alternating (tokenize s) = true.
Proof. exact (tokenize_alternating s). Qed.

(** A sequence of symbols and non-empty identifiers in which no two
    identifiers follow each other is the token sequence of its own text. *)
Lemma tokenize_concat_tokens ts :
  Forall (fun t => t <> ""
                   /\ (symbol_token t = true \/ identifier_token t = true)) ts ->
  alternating ts = true ->
  tokenize (concat_tokens ts) = ts.
Proof.
  induction ts as [|t ts IH]; intros Hall Halt; [reflexivity|].
  apply Forall_cons in Hall as [[Hne Ht] Hall].
  assert (alternating ts = true) as Halt'.
  { destruct ts as [|b r]; [reflexivity|].
    change (alternating (t :: b :: r))
      with ((symbol_token t || symbol_token b) && alternating (b :: r)) in Halt.
    apply andb_true_iff in Halt as [_ H]. exact H. }
  specialize (IH Hall Halt').
  change (concat_tokens (t :: ts)) with (t ++ concat_tokens ts).
  destruct (symbol_token t) eqn:Hsym.
  - destruct t as [|c [|d t]]; try discriminate Hsym. simpl in Hsym.
    change (String c "" ++ concat_tokens ts) with (String c (concat_tokens ts)).
    rewrite tokenize_reserved by exact Hsym. rewrite IH. reflexivity.
  - destruct Ht as [Ht|Ht]; [discriminate Ht|].
    assert (at_boundary (concat_tokens ts) = true) as Hb.
    { destruct ts as [|b r]; [reflexivity|].
      change (alternating (t :: b :: r))
        with ((symbol_token t || symbol_token b) && alternating (b :: r)) in Halt.
      rewrite Hsym in Halt. apply andb_true_iff in Halt as [Hb _].
      simpl in Hb. destruct b as [|c [|d b]]; try discriminate Hb. exact Hb. }
    pose proof (tokenize_field (mk_field "" t "") (concat_tokens ts)) as Hf.
    unfold field_text in Hf. cbn [pad_left ident pad_right] in Hf.
    change ("" ++ t ++ "") with (t ++ "") in Hf.
    rewrite string_app_empty_r in Hf.
    rewrite Hf; [rewrite IH; reflexivity| |exact Hb].
    unfold valid_field. cbn [pad_left ident pad_right]. rewrite Ht.
    apply String.eqb_neq in Hne. rewrite Hne. reflexivity.
Qed.

(** X6: writing the tokens of a text one after the other and tokenizing again
    gives the same tokens: the token sequence keeps all that the tokenizer
    reads from a text. *)
Theorem tokenize_concat_round_trip (s : string) :
  tokenize (concat_tokens (tokenize s)) = tokenize s.
Proof.
  apply tokenize_concat_tokens.
  - apply read_loop_Forall; [|constructor].
    intros st Hne. split; [exact Hne|apply getToken_shape].
  - apply tokenize_alternating.
Qed.

(** ** The automaton of the parser *)

Section Rejections.

Variables (p : IniParser) (l : locals) (i : Z) (token : string).
Hypothesis Htoken : at_index (tokens p) i = Ret token.

Ltac rejection Hstate :=
  unfold body; rewrite Htoken, bind_Ret, Hstate;
  repeat match goal with
    | H : String.eqb _ _ = _ |- _ => rewrite H
    | H : isIdent _ = _ |- _ => rewrite H
    end;
  reflexivity.

Lemma body_reject_idle :
  state l = 0%Z -> String.eqb token "[" = false -> isIdent token = false ->
  String.eqb token ";" = false -> String.eqb token nl = false ->
  body p l i
  = loop_message p (lineNumber l) i token
    ≫= λ message, Throw (SyntaxError message) p.
Proof. intros Hs H1 H2 H3 H4. rejection Hs. Qed.

Lemma body_reject_close_bracket :
  state l = 2%Z -> String.eqb token "]" = false ->
  body p l i
  = loop_message p (lineNumber l) i token
    ≫= λ message, Throw (SyntaxError message) p.
Proof. intros Hs H1. rejection Hs. Qed.

Lemma body_reject_equals_sign :
  state l = 3%Z -> String.eqb token "=" = false ->
  body p l i
  = loop_message p (lineNumber l) i token
    ≫= λ message, Throw (SyntaxError message) p.
Proof. intros Hs H1. rejection Hs. Qed.

Lemma body_reject_value :
  state l = 4%Z -> isIdent token = false -> String.eqb token nl = false ->
  body p l i
  = loop_message p (lineNumber l) i token
    ≫= λ message, Throw (SyntaxError message) p.
Proof. intros Hs H1 H2. rejection Hs. Qed.

Lemma body_reject_comment :
  state l = 5%Z -> isIdent token = false ->
  body p l i
  = loop_message p (lineNumber l) i token
    ≫= λ message, Throw (SyntaxError message) p.
Proof. intros Hs H1. rejection Hs. Qed.

Lemma body_reject_other_state :
  state l <> 0%Z -> state l <> 1%Z -> state l <> 2%Z -> state l <> 3%Z ->
  state l <> 4%Z -> state l <> 5%Z ->
  body p l i
  = loop_message p (lineNumber l) i token
    ≫= λ message, Throw (SyntaxError message) p.
Proof.
  intros H0 H1 H2 H3 H4 H5. unfold body. rewrite Htoken, bind_Ret.
  apply Z.eqb_neq in H0, H1, H2, H3, H4, H5.
  rewrite H0, H1, H2, H3, H4, H5. reflexivity.
Qed.

End Rejections.

Lemma next_state_other st token :
  st <> 0%Z -> st <> 1%Z -> st <> 2%Z -> st <> 3%Z -> st <> 4%Z -> st <> 5%Z ->
  next_state st token = None.
Proof.
  intros H0 H1 H2 H3 H4 H5.
  destruct st as [|q|q]; [congruence| |reflexivity].
  destruct q as [[[q|q|]|[q|q|]|]|[[q|q|]|[q|q|]|]|]; try reflexivity; congruence.
Qed.

Lemma at_index_back (v : list string) (j k : nat) :
  k <= j -> j < List.length v ->
  at_index v (Z.of_nat j - Z.of_nat k) = Ret (nth (j - k) v "").
Proof.
  intros Hk Hj. replace (Z.of_nat j - Z.of_nat k)%Z with (Z.of_nat (j - k)) by lia.
  apply at_index_nth_error. apply nth_error_nth'. lia.
Qed.

(** One iteration follows the automaton: it moves to the next state, or
    throws when the token is rejected.  The store changes only on leaving
    state 4. *)
Lemma body_next_state p l j :
  j < List.length (tokens p) -> consumed_enough l j ->
  match next_state (state l) (nth j (tokens p) "") with
  | Some st =>
      exists p' l',
        body p l (Z.of_nat j) = Ret (p', l') /\ state l' = st
        /\ tokens p' = tokens p /\ fileName p' = fileName p
        /\ consumed_enough l' (S j)
        /\ (state l <> 4%Z -> internal p' = internal p)
  | None =>
      exists msg, body p l (Z.of_nat j) = Throw (SyntaxError msg) p
  end.
Proof.
  intros Hj (H2 & H3 & H4).
  set (token := nth j (tokens p) "").
  assert (at_index (tokens p) (Z.of_nat j) = Ret token) as Htok
    by (apply at_index_nth_error, nth_error_nth'; exact Hj).
  pose proof (loop_message_text p (lineNumber l) j token Hj) as Hmsg.
  assert (forall b : result (IniParser * locals),
             b = loop_message p (lineNumber l) (Z.of_nat j) token
                 ≫= (λ message, Throw (SyntaxError message) p) ->
             exists msg, b = Throw (SyntaxError msg) p) as Hthrow.
  { intros b ->. rewrite Hmsg. eexists. reflexivity. }
  destruct (Z.eq_dec (state l) 0) as [E0|N0].
  { rewrite E0. simpl next_state.
    destruct (String.eqb token "[") eqn:T1.
    { apply String.eqb_eq in T1. eexists _, _.
      rewrite (body_open_bracket p l _ token Htok E0 T1).
      repeat split; simpl; intros; lia. }
    destruct (isIdent token) eqn:T2.
    { eexists _, _. rewrite (body_key p l _ token Htok E0 T2).
      repeat split; simpl; intros; lia. }
    destruct (String.eqb token ";") eqn:T3.
    { apply String.eqb_eq in T3. eexists _, _.
      rewrite (body_semicolon p l _ token Htok E0 T3).
      repeat split; simpl; intros; lia. }
    destruct (String.eqb token nl) eqn:T4.
    { apply String.eqb_eq in T4. eexists _, _.
      rewrite (body_blank p l _ token Htok E0 T4).
      repeat split; simpl; intros; lia. }
    apply Hthrow. apply body_reject_idle; assumption. }
  destruct (Z.eq_dec (state l) 1) as [E1|N1].
  { rewrite E1. simpl next_state. destruct (isIdent token) eqn:T.
    - eexists _, _. rewrite (body_section_name p l _ token Htok E1 T).
      repeat split; simpl; intros; lia.
    - apply Hthrow. apply body_reject_section_name; assumption. }
  destruct (Z.eq_dec (state l) 2) as [E2|N2].
  { rewrite E2. simpl next_state. destruct (String.eqb token "]") eqn:T.
    - apply String.eqb_eq in T. eexists _, _.
      rewrite (body_close_bracket p l _ token Htok (nth (j - 1) (tokens p) "")
                 E2 T (at_index_back _ j 1 (H2 E2) Hj)).
      repeat split; simpl; intros; lia.
    - apply Hthrow. apply body_reject_close_bracket; assumption. }
  destruct (Z.eq_dec (state l) 3) as [E3|N3].
  { rewrite E3. simpl next_state. destruct (String.eqb token "=") eqn:T.
    - apply String.eqb_eq in T. eexists _, _.
      rewrite (body_equals p l _ token Htok E3 T). specialize (H3 E3).
      repeat split; simpl; intros; lia.
    - apply Hthrow. apply body_reject_equals_sign; assumption. }
  destruct (Z.eq_dec (state l) 4) as [E4|N4].
  { rewrite E4. simpl next_state. destruct (isIdent token) eqn:T.
    - eexists _, _.
      rewrite (body_value p l _ token Htok (nth (j - 2) (tokens p) "")
                 E4 T (at_index_back _ j 2 (H4 E4) Hj)).
      repeat split; simpl; intros; try lia; congruence.
    - simpl orb. destruct (String.eqb token nl) eqn:T'.
      + apply String.eqb_eq in T'. eexists _, _.
        rewrite (body_empty_value p l _ token Htok (nth (j - 2) (tokens p) "")
                   E4 T' (at_index_back _ j 2 (H4 E4) Hj)).
        repeat split; simpl; intros; try lia; congruence.
      + apply Hthrow. apply body_reject_value; assumption. }
  destruct (Z.eq_dec (state l) 5) as [E5|N5].
  { rewrite E5. simpl next_state. destruct (isIdent token) eqn:T.
    - eexists _, _. rewrite (body_comment p l _ token Htok E5 T).
      repeat split; simpl; intros; lia.
    - apply Hthrow. apply body_reject_comment; assumption. }
  rewrite next_state_other by assumption.
  apply Hthrow. apply body_reject_other_state; assumption.
Qed.

Lemma skipn_nth_cons (v : list string) (j : nat) :
  j < List.length v -> skipn j v = nth j v "" :: skipn (S j) v.
Proof.
  revert j. induction v as [|x v IH]; intros j Hj; [simpl in Hj; lia|].
  destruct j as [|j]; [reflexivity|]. simpl in Hj.
  change (skipn (S j) (x :: v)) with (skipn j v).
  rewrite IH by lia. reflexivity.
Qed.

(** The loop follows the automaton over the tokens that are left. *)
Lemma for_loop_run_states n : forall j p l,
  j + n = List.length (tokens p) -> consumed_enough l j ->
  match run_states (state l) (skipn j (tokens p)) with
  | Some st =>
      exists p' l',
        for_loop n p l (Z.of_nat j)
        = Ret (p', l', Z.of_nat (List.length (tokens p)))
        /\ state l' = st
  | None =>
      exists msg q, for_loop n p l (Z.of_nat j) = Throw (SyntaxError msg) q
  end.
Proof.
  induction n as [|n IH]; intros j p l Hlen Hinv.
  - rewrite skipn_all2 by lia. simpl. exists p, l.
    rewrite <- Hlen, Nat.add_0_r. auto.
  - rewrite skipn_nth_cons by lia. simpl run_states.
    pose proof (body_next_state p l j ltac:(lia) Hinv) as Hb.
    destruct (next_state (state l) (nth j (tokens p) "")) as [st|].
    + destruct Hb as (p' & l' & Hbody & Hst & Ht & _ & Hinv' & _).
      simpl for_loop. rewrite Hbody, bind_Ret. simpl fst. simpl snd.
      replace (Z.of_nat j + 1)%Z with (Z.of_nat (S j)) by lia.
      specialize (IH (S j) p' l'). rewrite Ht, Hst in IH.
      apply IH; [lia|exact Hinv'].
    + destruct Hb as (msg & Hbody). simpl for_loop. rewrite Hbody.
      exists msg, p. reflexivity.
Qed.

Lemma consumed_enough_initial : consumed_enough initial_locals 0.
Proof. unfold consumed_enough. simpl. repeat split; discriminate. Qed.

(** X7: what [parse] does is decided by the automaton of the six states run
    over the token vector, whatever the store and the file name are: it
    returns when the automaton ends in state 0, throws a [SyntaxError] when a
    token is rejected, and reads past the end of the vector when the automaton
    ends in another state. *)
Theorem parse_follows_automaton (p : IniParser) :
  match run_states 0 (tokens p) with
  | Some st =>
      if (st =? 0)%Z then exists q, parse p = Ret q else parse p = Undefined
  | None => exists msg q, parse p = Throw (SyntaxError msg) q
  end.
Proof.
  pose proof (for_loop_run_states (List.length (tokens p)) 0 p initial_locals
                eq_refl consumed_enough_initial) as H.
  change (skipn 0 (tokens p)) with (tokens p) in H.
  change (state initial_locals) with 0%Z in H.
  change (Z.of_nat 0) with 0%Z in H.
  destruct (run_states 0 (tokens p)) as [st|].
  - destruct H as (p' & l' & Hloop & Hst).
    destruct (st =? 0)%Z eqn:E.
    + apply Z.eqb_eq in E. exists p'. unfold parse.
      rewrite Hloop, bind_Ret, Hst, E. reflexivity.
    + apply Z.eqb_neq in E. eapply parse_unterminated; [exact Hloop|].
      rewrite Hst. exact E.
  - destruct H as (msg & q & Hloop). exists msg, q. unfold parse.
    rewrite Hloop. reflexivity.
Qed.

(** ** What [parse] leaves as it is *)

Lemma body_frame p l i :
  match body p l i with
  | Ret (p', l') =>
      tokens p' = tokens p /\ fileName p' = fileName p /\ inp p' = inp p
      /\ (internal p' = internal p
          \/ exists key v,
               internal p' = assign (internal p) (curSection l) key v)
  | Throw _ q => q = p
  | Undefined => True
  end.
Proof.
  unfold body. body_branches; simpl; auto;
    (repeat split; right; do 2 eexists; reflexivity).
Qed.

Lemma keeps_keys_refl m : keeps_keys m m.
Proof. intros s sec Hs. eauto. Qed.

Lemma keeps_keys_assign m section key v : keeps_keys m (assign m section key v).
Proof.
  intros s sec Hs. unfold assign.
  destruct (decide (section = s)) as [->|Hne].
  - rewrite lookup_insert_eq, Hs. simpl. eexists. split; [reflexivity|].
    intros k Hk. destruct (decide (key = k)) as [->|Hk'].
    + rewrite lookup_insert_eq. eauto.
    + rewrite lookup_insert_ne by exact Hk'. exact Hk.
  - rewrite lookup_insert_ne by exact Hne. eauto.
Qed.

Lemma keeps_keys_trans m1 m2 m3 :
  keeps_keys m1 m2 -> keeps_keys m2 m3 -> keeps_keys m1 m3.
Proof.
  intros H12 H23 s sec Hs.
  destruct (H12 s sec Hs) as (sec' & Hs' & Hk').
  destruct (H23 s sec' Hs') as (sec'' & Hs'' & Hk'').
  exists sec''. split; [exact Hs''|]. auto.
Qed.

Lemma for_loop_frame n : forall p l i,
  match for_loop n p l i with
  | Ret (q, _, _) | Throw _ q =>
      tokens q = tokens p /\ fileName q = fileName p /\ inp q = inp p
      /\ keeps_keys (internal p) (internal q)
  | Undefined => True
  end.
Proof.
  induction n as [|n IH]; intros p l i.
  - simpl. repeat split. apply keeps_keys_refl.
  - simpl for_loop. pose proof (body_frame p l i) as Hb.
    destruct (body p l i) as [[p' l']|e q|]; [|subst q; simpl|exact I].
    + rewrite bind_Ret. simpl fst. simpl snd.
      destruct Hb as (Ht & Hf & Hi & Hm).
      specialize (IH p' l' (i + 1)%Z).
      assert (keeps_keys (internal p) (internal p')) as Hk.
      { destruct Hm as [->|(key & v & ->)].
        - apply keeps_keys_refl.
        - apply keeps_keys_assign. }
      destruct (for_loop n p' l' (i + 1)) as [[[q l''] i'']|e q|];
        [| |exact I];
        destruct IH as (Ht' & Hf' & Hi' & Hm');
        (repeat split; [congruence|congruence|congruence|]);
        eapply keeps_keys_trans; eassumption.
    + repeat split. apply keeps_keys_refl.
Qed.

(** What [parse] leaves as it is. *)
Lemma parse_frame (p : IniParser) :
  match parse p with
  | Ret q | Throw _ q =>
      tokens q = tokens p /\ fileName q = fileName p /\ inp q = inp p
      /\ keeps_keys (internal p) (internal q)
  | Undefined => True
  end.
Proof.
  unfold parse.
  pose proof (for_loop_frame (List.length (tokens p)) p initial_locals 0) as H.
  destruct (for_loop _ p initial_locals 0) as [[[q l] i]|e q|];
    [|exact H|exact I].
  rewrite bind_Ret. destruct (negb (state l =? 0)%Z); [|exact H].
  destruct (end_message q (lineNumber l) i) as [m|e' q'|] eqn:E; simpl;
    [exact H| |exact I].
  exfalso. unfold end_message in E.
  destruct (message_head q (lineNumber l) i) as [m|e2 q2|] eqn:E2; simpl in E.
  - destruct (at_index (tokens q) i) eqn:E3; simpl in E; try discriminate E.
    exact (at_index_not_throw _ _ _ _ E3).
  - exact (message_head_not_throw _ _ _ _ _ E2).
  - discriminate E.
Qed.

(** X8: [parse] changes nothing of the object but the store, and it never
    removes a section or a key from the store: whether it returns or throws,
    the token vector, the file name and the stream are as before, and every
    section and key that was in the store is still there. *)
Theorem parse_only_adds_to_the_store (p : IniParser) :
  match parse p with
  | Ret q | Throw _ q =>
      tokens q = tokens p /\ fileName q = fileName p /\ inp q = inp p
      /\ keeps_keys (internal p) (internal q)
  | Undefined => True
  end.
Proof. exact (parse_frame p). Qed.

(** ** The store when [parse] throws *)

(** The lines of a file of the grammar, read from state 0 with more tokens
    after them. *)
Lemma for_loop_file_then lines : forall n m name s pre rest cur num,
  forallb valid_line lines = true ->
  exists num',
    for_loop (List.length (file_tokens lines) + n)
      {| internal := m; fileName := name; inp := s;
         tokens := (pre ++ file_tokens lines ++ rest)%list |}
      {| curSection := cur; state := 0; lineNumber := num |}
      (Z.of_nat (List.length pre))
    = for_loop n
        {| internal := store_after m (assignments cur lines); fileName := name;
           inp := s; tokens := (pre ++ file_tokens lines ++ rest)%list |}
        {| curSection := section_after cur lines; state := 0;
           lineNumber := num' |}
        (Z.of_nat (List.length pre + List.length (file_tokens lines))).
Proof.
  induction lines as [|ln lines IH]; intros n m name s pre rest cur num Hv.
  - exists num. simpl. rewrite Nat.add_0_r. reflexivity.
  - simpl in Hv. apply andb_true_iff in Hv as [Hln Hv].
    change (file_tokens (ln :: lines))
      with (line_tokens ln ++ file_tokens lines)%list.
    rewrite length_app, <- !app_assoc, <- Nat.add_assoc.
    destruct (for_loop_line ln (List.length (file_tokens lines) + n) m name s
                pre (file_tokens lines ++ rest) cur num Hln) as [num1 ->].
    specialize (IH n (store_after m (assignments cur [ln])) name s
                  (pre ++ line_tokens ln)%list rest (section_after cur [ln])
                  num1 Hv).
    destruct IH as [num' IH]. exists num'.
    rewrite length_app, <- !app_assoc in IH. rewrite IH.
    rewrite (assignments_cons cur ln lines), store_after_app,
      (section_after_cons cur ln lines), Nat.add_assoc.
    reflexivity.
Qed.

Lemma for_loop_step p l j n st :
  j < List.length (tokens p) -> consumed_enough l j ->
  next_state (state l) (nth j (tokens p) "") = Some st ->
  exists p' l',
    for_loop (S n) p l (Z.of_nat j) = for_loop n p' l' (Z.of_nat (S j))
    /\ state l' = st /\ tokens p' = tokens p /\ fileName p' = fileName p
    /\ consumed_enough l' (S j)
    /\ (state l <> 4%Z -> internal p' = internal p).
Proof.
  intros Hj Hinv Hst. pose proof (body_next_state p l j Hj Hinv) as Hb.
  rewrite Hst in Hb. destruct Hb as (p' & l' & Hbody & H).
  exists p', l'. split; [|exact H].
  simpl for_loop. rewrite Hbody, bind_Ret. simpl fst. simpl snd.
  replace (Z.of_nat j + 1)%Z with (Z.of_nat (S j)) by lia. reflexivity.
Qed.

Lemma for_loop_reject p l j n :
  j < List.length (tokens p) -> consumed_enough l j ->
  next_state (state l) (nth j (tokens p) "") = None ->
  exists msg, for_loop (S n) p l (Z.of_nat j) = Throw (SyntaxError msg) p.
Proof.
  intros Hj Hinv Hst. pose proof (body_next_state p l j Hj Hinv) as Hb.
  rewrite Hst in Hb. destruct Hb as (msg & Hbody).
  exists msg. simpl for_loop. rewrite Hbody. reflexivity.
Qed.

Lemma next_state_idle_not_4 t st : next_state 0 t = Some st -> st <> 4%Z.
Proof.
  simpl. destruct (String.eqb t "["); [intros [= <-]; discriminate|].
  destruct (isIdent t); [intros [= <-]; discriminate|].
  destruct (String.eqb t ";"); [intros [= <-]; discriminate|].
  destruct (String.eqb t nl); [intros [= <-]; discriminate|discriminate].
Qed.

(** X9: a syntax error leaves in the store what the lines before it have
    assigned.  When the tokens are those of complete lines of the grammar,
    then at most two tokens of a line that has begun, then a token that the
    automaton rejects there, [parse] throws a [SyntaxError] and the store
    holds the assignments of the complete lines, made in order on top of what
    it held before. *)
Theorem syntax_error_keeps_earlier_assignments
    m name s (lines : list line) (mid rest : list string) (t : string) (st : Z) :
  forallb valid_line lines = true ->
  List.length mid <= 2 ->
  run_states 0 mid = Some st ->
  next_state st t = None ->
  exists msg q,
    parse {| internal := m; fileName := name; inp := s;
             tokens := (file_tokens lines ++ mid ++ t :: rest)%list |}
    = Throw (SyntaxError msg) q
    /\ internal q = store_after m (assignments "" lines)
    /\ tokens q = (file_tokens lines ++ mid ++ t :: rest)%list.
Proof.
  intros Hv Hlen Hrun Hrej. unfold parse. simpl tokens.
  set (ft := file_tokens lines).
  replace (List.length (ft ++ mid ++ t :: rest))
    with (List.length ft + (List.length mid + S (List.length rest)))
    by (rewrite !length_app; simpl; lia).
  destruct (for_loop_file_then lines (List.length mid + S (List.length rest))
              m name s [] (mid ++ t :: rest) "" 1%Z Hv) as [num' Hfile].
  cbn [app List.length Nat.add] in Hfile. change (Z.of_nat 0) with 0%Z in Hfile.
  fold ft in Hfile. unfold initial_locals. rewrite Hfile. clear Hfile.
  set (p1 := mk_IniParser _ _ _ _). set (l1 := mk_locals _ _ _).
  assert (consumed_enough l1 (List.length ft)) as Hinv1
    by (unfold consumed_enough; simpl; repeat split; discriminate).
  assert (forall k d, nth (List.length ft + k) (tokens p1) d
                      = nth k (mid ++ t :: rest) d) as Hnth.
  { intros k d. unfold p1. simpl tokens. rewrite app_nth2 by lia.
    f_equal. lia. }
  assert (List.length (tokens p1)
          = List.length ft + (List.length mid + S (List.length rest))) as Hsize
    by (unfold p1; simpl tokens; rewrite !length_app; simpl; lia).
  destruct mid as [|a [|b [|c mid]]]; simpl in Hlen; [| | |lia].
  - simpl in Hrun. injection Hrun as <-. simpl Nat.add.
    destruct (for_loop_reject p1 l1 (List.length ft) (List.length rest))
      as [msg Hthrow]; [rewrite Hsize; simpl; lia|exact Hinv1| |].
    { rewrite <- (Nat.add_0_r (List.length ft)), Hnth. exact Hrej. }
    rewrite Hthrow. exists msg, p1. auto.
  - cbn [run_states] in Hrun. destruct (next_state 0 a) as [st1|] eqn:Ha; [|discriminate].
    injection Hrun as ->. simpl Nat.add.
    destruct (for_loop_step p1 l1 (List.length ft) (S (List.length rest)) st)
      as (p2 & l2 & -> & Hs2 & Ht2 & _ & Hinv2 & Hm2);
      [rewrite Hsize; simpl; lia|exact Hinv1| |].
    { rewrite <- (Nat.add_0_r (List.length ft)), Hnth. exact Ha. }
    destruct (for_loop_reject p2 l2 (S (List.length ft)) (List.length rest))
      as [msg Hthrow]; [rewrite Ht2, Hsize; simpl; lia|exact Hinv2| |].
    { rewrite Ht2, Hs2. replace (S (List.length ft)) with (List.length ft + 1) by lia.
      rewrite Hnth. exact Hrej. }
    rewrite Hthrow. exists msg, p2. repeat split; [|exact Ht2].
    rewrite Hm2 by discriminate. reflexivity.
  - cbn [run_states] in Hrun. destruct (next_state 0 a) as [st1|] eqn:Ha; [|discriminate].
    destruct (next_state st1 b) as [st2|] eqn:Hb; [|discriminate].
    injection Hrun as ->. simpl Nat.add.
    destruct (for_loop_step p1 l1 (List.length ft) (S (S (List.length rest))) st1)
      as (p2 & l2 & -> & Hs2 & Ht2 & _ & Hinv2 & Hm2);
      [rewrite Hsize; simpl; lia|exact Hinv1| |].
    { rewrite <- (Nat.add_0_r (List.length ft)), Hnth. exact Ha. }
    destruct (for_loop_step p2 l2 (S (List.length ft)) (S (List.length rest)) st)
      as (p3 & l3 & -> & Hs3 & Ht3 & _ & Hinv3 & Hm3);
      [rewrite Ht2, Hsize; simpl; lia|exact Hinv2| |].
    { rewrite Ht2, Hs2. replace (S (List.length ft)) with (List.length ft + 1) by lia.
      rewrite Hnth. exact Hb. }
    destruct (for_loop_reject p3 l3 (S (S (List.length ft))) (List.length rest))
      as [msg Hthrow];
      [rewrite Ht3, Ht2, Hsize; simpl; lia|exact Hinv3| |].
    { rewrite Ht3, Ht2, Hs3.
      replace (S (S (List.length ft))) with (List.length ft + 2) by lia.
      rewrite Hnth. exact Hrej. }
    rewrite Hthrow. exists msg, p3. repeat split; [|rewrite Ht3, Ht2; reflexivity].
    rewrite Hm3, Hm2; [reflexivity|discriminate|].
    rewrite Hs2. eapply next_state_idle_not_4. exact Ha.
Qed.

Lemma syntax_error_keeps_earlier_assignments_witness :
  exists msg q,
    parse {| internal := ∅; fileName := "config.ini"; inp := closed_stream;
             tokens := (file_tokens [section_header "a"; blank;
                                     assignment "k" (Some "v")]
                        ++ ["["; "b"] ++ nl :: ["c"; "="; "d"; nl])%list |}
    = Throw (SyntaxError msg) q
    /\ internal q
       = store_after ∅
           (assignments "" [section_header "a"; blank;
                            assignment "k" (Some "v")])
    /\ tokens q
       = (file_tokens [section_header "a"; blank; assignment "k" (Some "v")]
          ++ ["["; "b"] ++ nl :: ["c"; "="; "d"; nl])%list.
Proof.
  apply (syntax_error_keeps_earlier_assignments ∅ "config.ini" closed_stream
           [section_header "a"; blank; assignment "k" (Some "v")]
           ["["; "b"] ["c"; "="; "d"; nl] nl 2%Z).
  - reflexivity.
  - simpl. lia.
  - reflexivity.
  - reflexivity.
Defined.

(** ** [print] and the order of the store *)

#[local] Instance key_le_transitive {V : Type} : Transitive (@key_le V).
Proof. intros x y z. unfold key_le. apply transitivity. Qed.

#[local] Instance key_le_total {V : Type} : Total (@key_le V).
Proof. intros x y. unfold key_le. apply total, _. Qed.

Lemma in_key_order_In {V : Type} (m : gmap string V) k v :
  In (k, v) (in_key_order m) <-> m !! k = Some v.
Proof.
  rewrite <- list_elem_of_In. unfold in_key_order.
  rewrite merge_sort_Permutation. apply elem_of_map_to_list.
Qed.

Lemma StronglySorted_strict {V : Type} (l : list (string * V)) :
  StronglySorted key_le l -> NoDup (fst <$> l) -> StronglySorted key_lt l.
Proof.
  induction l as [|x l IH]; intros Hs Hn; [constructor|].
  apply StronglySorted_cons in Hs as [Hx Hs].
  rewrite fmap_cons in Hn. apply NoDup_cons in Hn as [Hnx Hn].
  apply StronglySorted_cons. split; [|apply IH; assumption].
  apply Forall_forall. intros y Hy.
  split; [exact (proj1 (Forall_forall _ _) Hx y Hy)|].
  intros E. apply Hnx. rewrite E. apply list_elem_of_fmap. exists y. auto.
Qed.

Lemma in_key_order_sorted {V : Type} (m : gmap string V) :
  StronglySorted key_lt (in_key_order m).
Proof.
  apply StronglySorted_strict.
  - unfold in_key_order. apply StronglySorted_merge_sort; apply _.
  - unfold in_key_order. rewrite merge_sort_Permutation.
    apply NoDup_fst_map_to_list.
Qed.

Lemma entries_In m section key value :
  In (section, key, value) (entries m)
  <-> exists sec, m !! section = Some sec /\ sec !! key = Some value.
Proof.
  unfold entries. rewrite in_flat_map. split.
  - intros ([s sec] & Hs & Hin). apply in_map_iff in Hin as ([k v] & E & Hk).
    simpl in E. injection E as -> -> ->.
    exists sec. split; [apply in_key_order_In, Hs|apply in_key_order_In, Hk].
  - intros (sec & Hs & Hk). exists (section, sec).
    split; [apply in_key_order_In, Hs|].
    apply in_map_iff. exists (key, value).
    split; [reflexivity|apply in_key_order_In, Hk].
Qed.

Lemma entries_of_section_sorted (section : string) (l : list (string * string)) :
  StronglySorted key_lt l ->
  StronglySorted entry_lt
    (map (fun keyPair => (section, fst keyPair, snd keyPair)) l).
Proof.
  induction l as [|x l IH]; intros Hs; [constructor|].
  apply StronglySorted_cons in Hs as [Hx Hs]. simpl.
  apply StronglySorted_cons. split; [|apply IH, Hs].
  apply Forall_forall. intros e He.
  apply list_elem_of_In, in_map_iff in He as (y & <- & Hy).
  right. simpl. split; [reflexivity|].
  apply (proj1 (Forall_forall _ _) Hx), list_elem_of_In, Hy.
Qed.

Lemma entries_sorted m : StronglySorted entry_lt (entries m).
Proof.
  unfold entries. pose proof (in_key_order_sorted m) as Hs.
  induction (in_key_order m) as [|x l IH]; [constructor|].
  apply StronglySorted_cons in Hs as [Hx Hs]. simpl.
  apply StronglySorted_app. split; [|split].
  - intros e1 e2 H1 H2.
    apply list_elem_of_In, in_map_iff in H1 as (y1 & <- & _).
    apply list_elem_of_In, in_flat_map in H2 as (x2 & Hx2 & H2).
    apply in_map_iff in H2 as (y2 & <- & _).
    left. simpl.
    apply (proj1 (Forall_forall _ _) Hx), list_elem_of_In, Hx2.
  - apply entries_of_section_sorted, in_key_order_sorted.
  - apply IH, Hs.
Qed.

Lemma print_entries p :
  print p
  = concat_tokens
      (map (fun e => print_line (fst (fst e)) (snd (fst e)) (snd e))
         (entries (internal p))).
Proof.
  unfold print, entries.
  induction (in_key_order (internal p)) as [|x l IH]; [reflexivity|].
  simpl. rewrite IH, map_app. unfold concat_tokens. rewrite fold_right_app.
  induction (in_key_order (snd x)) as [|y l' IH']; [reflexivity|].
  simpl. rewrite IH'. reflexivity.
Qed.

(** X10: [print] writes one line [[section][key]=value] for every pair of
    the store and no other line, section by section in the order of the
    section names, and within a section in the order of the keys. *)
Theorem print_lists_the_store_in_order (p : IniParser) :
  print p
  = concat_tokens
      (map (fun e => print_line (fst (fst e)) (snd (fst e)) (snd e))
         (entries (internal p)))
  /\ (forall section key value,
        In (section, key, value) (entries (internal p))
        <-> exists sec,
              internal p !! section = Some sec /\ sec !! key = Some value)
  /\ StronglySorted entry_lt (entries (internal p)).
Proof.
  split; [apply print_entries|]. split; [apply entries_In|apply entries_sorted].
Qed.

(** ** Reading the store with [operator[]] *)

Lemma get_store p section key :
  internal (snd (get p section key))
  = assign (internal p) section key (fst (get p section key)).
Proof. unfold get, operator_index, assign. simpl. apply insert_insert_eq. Qed.

Lemma get_present p section key sec v :
  internal p !! section = Some sec -> sec !! key = Some v ->
  get p section key = (v, p).
Proof.
  intros Hs Hk. destruct p as [m name s ts]. simpl in Hs.
  unfold get, operator_index, set_internal. simpl. rewrite Hs. simpl.
  rewrite Hk. simpl. rewrite insert_insert_eq.
  rewrite (insert_id sec key v Hk), (insert_id m section sec Hs). reflexivity.
Qed.

Lemma get_absent p section key :
  default ∅ (internal p !! section) !! key = None ->
  fst (get p section key) = ""
  /\ internal (snd (get p section key)) = assign (internal p) section key "".
Proof.
  intros Hk. pose proof (get_store p section key) as Hst.
  assert (fst (get p section key) = "") as Hv.
  { rewrite get_value, Hk. reflexivity. }
  rewrite Hv in Hst. auto.
Qed.

(** X11: [config[section][key]] returns the stored value and leaves the
    object as it is when the key is there; when the section or the key is
    missing it returns the empty string and stores it under that section and
    key, which are created.  Asking again gives the same answer and changes
    nothing more. *)
Theorem get_returns_value_or_creates_key (p : IniParser) (section key : string) :
  (forall sec v,
      internal p !! section = Some sec -> sec !! key = Some v ->
      get p section key = (v, p))
  /\ (default ∅ (internal p !! section) !! key = None ->
      fst (get p section key) = ""
      /\ internal (snd (get p section key))
         = assign (internal p) section key "")
  /\ get (snd (get p section key)) section key
     = (fst (get p section key), snd (get p section key))
  /\ tokens (snd (get p section key)) = tokens p
  /\ fileName (snd (get p section key)) = fileName p.
Proof.
  split; [intros sec v; apply get_present|]. split; [|split; [|split]].
  - apply get_absent.
  - pose proof (get_store p section key) as Hst.
    destruct (get p section key) as [v p'] eqn:E. simpl in *.
    eapply get_present.
    + rewrite Hst. unfold assign. apply lookup_insert_eq.
    + apply lookup_insert_eq.
  - reflexivity.
  - reflexivity.
Qed.

Lemma get_returns_value_or_creates_key_witness :
  get (set_internal (new_IniParser "config.ini") {[ "a" := {[ "b" := "c" ]} ]})
    "a" "b"
  = ("c", set_internal (new_IniParser "config.ini") {[ "a" := {[ "b" := "c" ]} ]})
  /\ fst (get (new_IniParser "config.ini") "a" "b") = ""
  /\ internal (snd (get (new_IniParser "config.ini") "a" "b"))
     = assign ∅ "a" "b" "".
Proof.
  split.
  - apply (proj1 (get_returns_value_or_creates_key _ "a" "b") {[ "b" := "c" ]} "c");
      reflexivity.
  - apply (proj1 (proj2 (get_returns_value_or_creates_key
                           (new_IniParser "config.ini") "a" "b"))).
    reflexivity.
Defined.

(** ** What [print] shows after the other operations *)

Lemma entry_lt_irrefl e : ~ entry_lt e e.
Proof. intros [[_ H]|[_ [_ H]]]; apply H; reflexivity. Qed.

Lemma entry_lt_asym e1 e2 : entry_lt e1 e2 -> entry_lt e2 e1 -> e1 = e2.
Proof.
  intros [[H1 N1]|[E1 [H1 N1]]] [[H2 N2]|[E2 [H2 N2]]]; exfalso.
  - apply N1. apply (anti_symm String.le); assumption.
  - apply N1. symmetry. exact E2.
  - apply N2. symmetry. exact E1.
  - apply N1. apply (anti_symm String.le); assumption.
Qed.

Lemma entries_NoDup m : NoDup (entries m).
Proof.
  pose proof (entries_sorted m) as Hs.
  induction (entries m) as [|e l IH]; [constructor|].
  apply StronglySorted_cons in Hs as [He Hs].
  constructor; [|apply IH, Hs].
  intros Hin. apply (entry_lt_irrefl e).
  exact (proj1 (Forall_forall _ _) He e Hin).
Qed.

(** Two stores with the same pairs are printed alike. *)
Lemma entries_ext m1 m2 :
  (forall e, In e (entries m1) <-> In e (entries m2)) ->
  entries m1 = entries m2.
Proof.
  intros H. apply (StronglySorted_unique_strong entry_lt).
  - intros e1 e2 _ _. apply entry_lt_asym.
  - apply entries_sorted.
  - apply entries_sorted.
  - apply NoDup_Permutation; [apply entries_NoDup|apply entries_NoDup|].
    intros e. rewrite !list_elem_of_In. apply H.
Qed.

Lemma lookup_pair_iff (m : gmap string (gmap string string)) s k v :
  (exists sec, m !! s = Some sec /\ sec !! k = Some v)
  <-> default ∅ (m !! s) !! k = Some v.
Proof.
  destruct (m !! s) as [sec|]; simpl.
  - split; [intros (sec' & [= <-] & H); exact H|eauto].
  - rewrite lookup_empty. split; [intros (sec' & H & _)|intros H]; discriminate H.
Qed.

Lemma entries_empty : entries ∅ = [].
Proof.
  destruct (entries ∅) as [|[[s k] v] l] eqn:E; [reflexivity|].
  assert (In (s, k, v) (entries ∅)) as Hin by (rewrite E; left; reflexivity).
  apply entries_In in Hin as (sec & Hs & _). rewrite lookup_empty in Hs.
  discriminate Hs.
Qed.

(** X12: [print] writes nothing after [clear()]; a section that
    [operator[]] has created and that holds no key is not shown; and after
    [config[section][key]] on a missing key the pairs shown are those shown
    before and the new pair with its empty value. *)
Theorem print_after_clear_and_lookups (p : IniParser) (section key : string) :
  print (clear p) = ""
  /\ print (snd (operator_index p section)) = print p
  /\ (default ∅ (internal p !! section) !! key = None ->
      forall e,
        In e (entries (internal (snd (get p section key))))
        <-> e = (section, key, "") \/ In e (entries (internal p))).
Proof.
  split; [|split].
  - rewrite print_entries. unfold clear. simpl internal.
    rewrite entries_empty. reflexivity.
  - rewrite !print_entries. f_equal. f_equal.
    unfold operator_index. simpl internal. apply entries_ext.
    intros [[s k] v]. rewrite !entries_In.
    destruct (internal p !! section) as [sec|] eqn:Hs; simpl.
    + rewrite (insert_id _ _ _ Hs). reflexivity.
    + destruct (decide (section = s)) as [->|Hne].
      * rewrite lookup_insert_eq, Hs. split.
        -- intros (sec & [= <-] & Hk). rewrite lookup_empty in Hk.
           discriminate Hk.
        -- intros (sec & Hsec & _). discriminate Hsec.
      * rewrite lookup_insert_ne by exact Hne. reflexivity.
  - intros Hk [[s k] v]. destruct (get_absent p section key Hk) as [_ ->].
    rewrite !entries_In, !lookup_pair_iff, assign_lookup.
    destruct (String.eqb section s && String.eqb key k) eqn:E.
    + apply andb_true_iff in E as [Es Ek].
      apply String.eqb_eq in Es, Ek. subst s k. rewrite Hk. split.
      * intros [= Hv]. left. rewrite Hv. reflexivity.
      * intros [[= Hv]|H]; [rewrite Hv; reflexivity|discriminate H].
    + split; [intros H; right; exact H|].
      intros [[= Hs1 Hk1 Hv1]|H]; [|exact H].
      subst s k. rewrite !String.eqb_refl in E. discriminate E.
Qed.

Lemma print_after_clear_and_lookups_witness :
  default ∅ (internal (new_IniParser "config.ini") !! "a") !! "b" = None
  /\ forall e,
       In e (entries (internal (snd (get (new_IniParser "config.ini") "a" "b"))))
       <-> e = ("a", "b", "")
           \/ In e (entries (internal (new_IniParser "config.ini"))).
Proof.
  split; [reflexivity|].
  apply (proj2 (proj2 (print_after_clear_and_lookups
                         (new_IniParser "config.ini") "a" "b"))).
  reflexivity.
Defined.

(** ** [read] *)

Lemma after_call_failbit c p :
  failbit (inp p) = true ->
  exists q, after_call c p = Some q /\ failbit (inp q) = true.
Proof.
  intros H. destruct c; simpl; try (eexists; split; [reflexivity|exact H]).
  unfold read. rewrite H. eexists; split; [reflexivity|exact H].
Qed.

(** No call clears the [failbit] of the stream. *)
Lemma after_calls_failbit cs : forall p,
  failbit (inp p) = true ->
  exists q, after_calls cs p = Some q /\ failbit (inp q) = true.
Proof.
  induction cs as [|c cs IH]; intros p H.
  - exists p. split; [reflexivity|exact H].
  - destruct (after_call_failbit c p H) as (q & Hq & Hf).
    simpl. rewrite Hq. apply IH. exact Hf.
Qed.

(** X13: when the file cannot be opened, [read] throws [FileNotFound] and
    leaves the store and the token vector as they are; but the stream keeps
    its [failbit], which no call clears: whatever calls are made on the
    object afterwards, every [read] throws the failure of the stream library
    at once, whether the file can be opened by then or not, and changes
    nothing. *)
Theorem read_missing_file_disables_the_object (p : IniParser) :
  failbit (inp p) = false ->
  exists q,
    read None p = Throw FileNotFound q
    /\ internal q = internal p /\ tokens q = tokens p
    /\ forall cs,
         exists q',
           after_calls cs q = Some q'
           /\ forall file, read file q' = Throw ios_failure q'.
Proof.
  intros H. unfold read at 1. rewrite H. eexists. split; [reflexivity|].
  split; [reflexivity|]. split; [reflexivity|]. intros cs.
  destruct (after_calls_failbit cs
              (set_inp p {| chars := chars (inp p); eofbit := eofbit (inp p);
                            failbit := true |}) eq_refl) as (q' & Hq & Hf).
  exists q'. split; [exact Hq|]. intros file. unfold read. rewrite Hf.
  reflexivity.
Qed.

Lemma read_missing_file_disables_the_object_witness :
  exists q,
    read None (new_IniParser "config.ini") = Throw FileNotFound q
    /\ internal q = internal (new_IniParser "config.ini")
    /\ tokens q = tokens (new_IniParser "config.ini")
    /\ forall cs,
         exists q',
           after_calls cs q = Some q'
           /\ forall file, read file q' = Throw ios_failure q'.
Proof.
  apply (read_missing_file_disables_the_object (new_IniParser "config.ini")).
  reflexivity.
Defined.

Lemma getToken_stream cs f :
  failbit (snd (getToken {| chars := cs; eofbit := false; failbit := f |})) = f
  /\ (eofbit (snd (getToken {| chars := cs; eofbit := false; failbit := f |}))
      = true ->
      chars (snd (getToken {| chars := cs; eofbit := false; failbit := f |}))
      = "").
Proof.
  destruct cs as [|c r].
  - rewrite getToken_at_end. auto.
  - destruct (reserved c) eqn:Hc.
    + rewrite getToken_reserved by exact Hc. simpl. split; [reflexivity|discriminate].
    + rewrite getToken_run by exact Hc. simpl. split; [reflexivity|].
      apply accumulate_eof.
Qed.

(** The loop of [read] ends with the whole file consumed. *)
Lemma read_loop_final s ts :
  (eofbit s = true -> chars s = "") ->
  fst (read_loop s ts)
  = {| chars := ""; eofbit := true; failbit := failbit s |}.
Proof.
  remember (S (stream_measure s)) as n eqn:Hn.
  assert (stream_measure s < n) as Hlt by lia. clear Hn.
  revert s ts Hlt. induction n as [|n IH]; intros s ts Hlt Hinv; [lia|].
  destruct s as [cs [|] f].
  - rewrite read_loop_equation_1. simpl in *. rewrite Hinv by reflexivity.
    reflexivity.
  - rewrite read_loop_equation_2.
    pose proof (getToken_measure {| chars := cs; eofbit := false; failbit := f |}
                  eq_refl) as Hm.
    destruct (getToken_stream cs f) as [Hf He].
    rewrite IH; [|lia|exact He]. rewrite Hf. reflexivity.
Qed.

Lemma read_empty_vector m name cs e content :
  read (Some content)
    {| internal := m; fileName := name;
       inp := {| chars := cs; eofbit := e; failbit := false |}; tokens := [] |}
  = parse {| internal := m; fileName := name;
             inp := {| chars := ""; eofbit := true; failbit := false |};
             tokens := tokenize content |}.
Proof.
  rewrite read_appends_tokens.
  rewrite read_loop_final by discriminate. reflexivity.
Qed.

Lemma trimWS_whitespace s : all_chars is_ws s = true -> trimWS s = "".
Proof.
  intros H. unfold trimWS. pose proof (find_first_not_of_pad s "" H) as Hf.
  rewrite string_app_empty_r in Hf. rewrite Hf. reflexivity.
Qed.

Lemma is_ws_reserved c : is_ws c = true -> reserved c = true -> c = LF.
Proof.
  intros Hw Hr. apply reserved_true_iff in Hr.
  destruct Hr as [-> | [-> | [-> | [-> | ->]]]]; try discriminate Hw.
  reflexivity.
Qed.

(** The tokens of a text of whitespace are its newlines. *)
Lemma tokenize_whitespace content :
  all_chars is_ws content = true ->
  exists k, tokenize content = file_tokens (repeat blank k).
Proof.
  remember (S (String.length content)) as n eqn:Hn.
  assert (String.length content < n) as Hlt by lia. clear Hn.
  revert content Hlt. induction n as [|n IH]; intros s Hlt Hws; [lia|].
  destruct s as [|c r]; [exists 0; reflexivity|].
  simpl in Hlt, Hws. apply andb_true_iff in Hws as [Hc Hr].
  destruct (reserved c) eqn:Hres.
  - rewrite (is_ws_reserved c Hc Hres) in *.
    destruct (IH r ltac:(lia) Hr) as [k Hk]. exists (S k).
    rewrite tokenize_reserved by reflexivity. rewrite Hk. reflexivity.
  - rewrite tokenize_run by exact Hres.
    destruct (accumulate_split r (str1 c)) as (run & H1 & H2 & _ & _).
    pose proof (accumulate_rest_length r (str1 c)) as Hlen.
    remember (fst (snd (accumulate r (str1 c)))) as rest eqn:Hrest. clear Hrest.
    rewrite H1. rewrite H2, all_chars_append in Hr.
    apply andb_true_iff in Hr as [Hrun Hrest].
    rewrite trimWS_whitespace
      by (change (str1 c ++ run) with (String c run); simpl;
          rewrite Hc, Hrun; reflexivity).
    destruct (IH rest ltac:(lia) Hrest) as [k Hk]. exists k. exact Hk.
Qed.

Lemma assignments_blank k cur : assignments cur (repeat blank k) = [].
Proof. induction k as [|k IH]; [reflexivity|exact IH]. Qed.

Lemma valid_blank k : forallb valid_line (repeat blank k) = true.
Proof. induction k as [|k IH]; [reflexivity|exact IH]. Qed.

Lemma read_without_assignments m name cs e content lines :
  forallb valid_line lines = true ->
  tokenize content = file_tokens lines ->
  assignments "" lines = [] ->
  read (Some content)
    {| internal := m; fileName := name;
       inp := {| chars := cs; eofbit := e; failbit := false |}; tokens := [] |}
  = Ret {| internal := m; fileName := name;
           inp := {| chars := ""; eofbit := true; failbit := false |};
           tokens := tokenize content |}.
Proof.
  intros Hv Htok Hno. rewrite read_empty_vector, Htok.
  rewrite (parse_file lines m name _ Hv), Hno. reflexivity.
Qed.

(** X14: a file that assigns nothing changes nothing in the store:
    section headers, comments and blank lines alone leave it as it was (a
    header creates no section before a key is assigned under it), and so does
    a file that holds only whitespace, or nothing at all. *)
Theorem read_without_assignments_keeps_the_store
    (m : gmap string (gmap string string)) (name cs : string) (e : bool)
    (content : string) :
  (forall lines,
      forallb valid_line lines = true ->
      tokenize content = file_tokens lines ->
      assignments "" lines = [] ->
      read (Some content)
        {| internal := m; fileName := name;
           inp := {| chars := cs; eofbit := e; failbit := false |};
           tokens := [] |}
      = Ret {| internal := m; fileName := name;
               inp := {| chars := ""; eofbit := true; failbit := false |};
               tokens := tokenize content |})
  /\ (all_chars is_ws content = true ->
      read (Some content)
        {| internal := m; fileName := name;
           inp := {| chars := cs; eofbit := e; failbit := false |};
           tokens := [] |}
      = Ret {| internal := m; fileName := name;
               inp := {| chars := ""; eofbit := true; failbit := false |};
               tokens := tokenize content |}).
Proof.
  split.
  - intros lines. apply read_without_assignments.
  - intros Hws. destruct (tokenize_whitespace content Hws) as [k Hk].
    apply (read_without_assignments m name cs e content (repeat blank k)).
    + apply valid_blank.
    + exact Hk.
    + apply assignments_blank.
Qed.

Lemma read_without_assignments_keeps_the_store_witness :
  read (Some ("[a]" ++ nl ++ "; note" ++ nl ++ nl))
    {| internal := {[ "s" := {[ "k" := "v" ]} ]}; fileName := "config.ini";
       inp := closed_stream; tokens := [] |}
  = Ret {| internal := {[ "s" := {[ "k" := "v" ]} ]}; fileName := "config.ini";
           inp := {| chars := ""; eofbit := true; failbit := false |};
           tokens := tokenize ("[a]" ++ nl ++ "; note" ++ nl ++ nl) |}
  /\ read (Some (" " ++ nl ++ String TAB nl))
       {| internal := {[ "s" := {[ "k" := "v" ]} ]}; fileName := "config.ini";
          inp := closed_stream; tokens := [] |}
     = Ret {| internal := {[ "s" := {[ "k" := "v" ]} ]};
              fileName := "config.ini";
              inp := {| chars := ""; eofbit := true; failbit := false |};
              tokens := tokenize (" " ++ nl ++ String TAB nl) |}.
Proof.
  split.
  - apply (proj1 (read_without_assignments_keeps_the_store
                    {[ "s" := {[ "k" := "v" ]} ]} "config.ini" "" false
                    ("[a]" ++ nl ++ "; note" ++ nl ++ nl))
             [section_header "a"; blank; comment "note"; blank; blank]).
    + reflexivity.
    + vm_compute. reflexivity.
    + reflexivity.
  - apply (proj2 (read_without_assignments_keeps_the_store
                    {[ "s" := {[ "k" := "v" ]} ]} "config.ini" "" false
                    (" " ++ nl ++ String TAB nl))).
    reflexivity.
Defined.

(** X15: after [read] of a file of the grammar on a new object, [print]
    shows exactly the pairs that the file assigns, each once and with the
    value of its last assignment. *)
Theorem print_after_read_shows_last_assignments
    (name content : string) (lines : list line) :
  forallb valid_line lines = true ->
  tokenize content = file_tokens lines ->
  exists p,
    read (Some content) (new_IniParser name) = Ret p
    /\ forall section key value,
         In (section, key, value) (entries (internal p))
         <-> last_value (assignments "" lines) section key = Some value.
Proof.
  intros Hv Htok. destruct (read_file_tokens name content lines Hv Htok) as [s ->].
  eexists. split; [reflexivity|]. intros section key value. simpl internal.
  rewrite entries_In, lookup_pair_iff, store_after_lookup.
  destruct (last_value (assignments "" lines) section key); [reflexivity|].
  rewrite lookup_empty. simpl. rewrite lookup_empty. reflexivity.
Qed.

Lemma print_after_read_shows_last_assignments_witness :
  exists p,
    read (Some ("[a]" ++ nl ++ "b=c" ++ nl ++ "b=d" ++ nl))
      (new_IniParser "config.ini") = Ret p
    /\ forall section key value,
         In (section, key, value) (entries (internal p))
         <-> last_value
               (assignments ""
                  [section_header "a"; blank; assignment "b" (Some "c");
                   assignment "b" (Some "d")]) section key = Some value.
Proof.
  apply (print_after_read_shows_last_assignments "config.ini"
           ("[a]" ++ nl ++ "b=c" ++ nl ++ "b=d" ++ nl)
           [section_header "a"; blank; assignment "b" (Some "c");
            assignment "b" (Some "d")]).
  - reflexivity.
  - vm_compute. reflexivity.
Defined.

(** ** Blanks beside the reserved characters *)

Lemma trimWS_padded a t b :
  all_chars is_ws a = true -> all_chars is_ws b = true ->
  starts_ws t = false -> ends_ws t = false ->
  trimWS (a ++ t ++ b) = t.
Proof.
  intros Ha Hb Hs He. destruct t as [|c r].
  - change ("" ++ b) with b. apply trimWS_whitespace.
    rewrite all_chars_append, Ha, Hb. reflexivity.
  - unfold trimWS.
    rewrite find_first_not_of_pad by exact Ha.
    rewrite find_last_not_of_app, find_last_not_of_app.
    rewrite find_last_not_of_pad by exact Hb.
    rewrite find_last_not_of_trimmed by (discriminate || exact He).
    simpl in Hs. unfold is_ws in Hs.
    change (String c r ++ b) with (String c (r ++ b)).
    simpl find_first_not_of. rewrite Hs. simpl option_map.
    change (String c (r ++ b)) with (String c r ++ b).
    cbv iota.
    match goal with
    | |- substring ?n ?m _ = _ =>
        replace m with (String.length (String c r)) by (simpl; lia);
        replace n with (String.length a) by lia
    end.
    apply substring_middle.
Qed.

(** Whitespace added at the ends of a string is trimmed with its own. *)
Lemma trimWS_pad l s r :
  all_chars is_ws l = true -> all_chars is_ws r = true ->
  trimWS (l ++ s ++ r) = trimWS s.
Proof.
  intros Hl Hr. destruct (trimWS_shape s) as (a & b & Hs & Ha & Hb & H1 & H2).
  rewrite Hs at 1.
  replace (l ++ (a ++ trimWS s ++ b) ++ r)
    with ((l ++ a) ++ trimWS s ++ (b ++ r))
    by (rewrite !string_app_assoc; reflexivity).
  apply trimWS_padded; try assumption.
  - rewrite all_chars_append, Hl, Ha. reflexivity.
  - rewrite all_chars_append, Hb, Hr. reflexivity.
Qed.

(** A run goes on through characters that are not reserved. *)
Lemma accumulate_app w y t :
  no_reserved w = true -> accumulate (w ++ y) t = accumulate y (t ++ w).
Proof.
  revert t. induction w as [|c w IH]; intros t Hw.
  - change ("" ++ y) with y. rewrite string_app_empty_r. reflexivity.
  - unfold no_reserved in Hw. simpl in Hw. apply andb_true_iff in Hw as [Hc Hw].
    apply negb_true_iff in Hc.
    change (String c w ++ y) with (String c (w ++ y)). simpl.
    rewrite Hc, IH by exact Hw. rewrite string_app_assoc. reflexivity.
Qed.

(** Blanks before the text give no token of their own. *)
Lemma tokenize_leading_blanks w y :
  blank_pad w = true -> tokenize (w ++ y) = tokenize y.
Proof.
  intros Hw. destruct w as [|d w]; [reflexivity|].
  pose proof (blank_pad_no_reserved _ Hw) as Hn.
  pose proof (blank_pad_ws _ Hw) as Hws.
  unfold no_reserved in Hn. simpl in Hn. apply andb_true_iff in Hn as [Hd Hn].
  apply negb_true_iff in Hd.
  change (String d w ++ y) with (String d (w ++ y)).
  rewrite tokenize_run by exact Hd. rewrite accumulate_app by exact Hn.
  change (str1 d ++ w) with (String d w).
  destruct y as [|c r].
  - simpl accumulate. simpl fst. simpl snd.
    rewrite trimWS_whitespace by exact Hws. reflexivity.
  - destruct (reserved c) eqn:Hc.
    + simpl accumulate. rewrite Hc. simpl fst. simpl snd.
      rewrite trimWS_whitespace by exact Hws. reflexivity.
    + rewrite (tokenize_run c r) by exact Hc.
      simpl accumulate. rewrite Hc.
      destruct (accumulate_split r (String d w ++ str1 c)) as (run & H1 & _).
      destruct (accumulate_split r (str1 c)) as (run' & H1' & _).
      assert (forall t u, accumulate r (t ++ u)
                          = (t ++ fst (accumulate r u), snd (accumulate r u)))
        as Hpre.
      { clear. induction r as [|x r IH]; intros t u; simpl.
        - reflexivity.
        - destruct (reserved x); [reflexivity|].
          rewrite <- IH, string_app_assoc. reflexivity. }
      rewrite Hpre. simpl fst. simpl snd.
      rewrite <- (string_app_empty_r (fst (accumulate r (str1 c)))) at 1.
      rewrite trimWS_pad by (exact Hws || reflexivity). reflexivity.
Qed.

(** Blanks at the end of the text give no token of their own. *)
Lemma tokenize_trailing_blanks w x :
  blank_pad w = true -> tokenize (x ++ w) = tokenize x.
Proof.
  intros Hw. remember (S (String.length x)) as n eqn:Hn.
  assert (String.length x < n) as Hlt by lia. clear Hn.
  revert x Hlt. induction n as [|n IH]; intros x Hlt; [lia|].
  destruct x as [|c r].
  - change ("" ++ w) with w. rewrite <- (string_app_empty_r w).
    apply tokenize_leading_blanks. exact Hw.
  - simpl in Hlt. change (String c r ++ w) with (String c (r ++ w)).
    destruct (reserved c) eqn:Hc.
    + rewrite !tokenize_reserved by exact Hc. rewrite IH by lia. reflexivity.
    + rewrite !tokenize_run by exact Hc.
      destruct (accumulate_split r (str1 c)) as (run & _ & H2 & Hrun & Hb).
      pose proof (accumulate_rest_length r (str1 c)) as Hlen.
      remember (fst (snd (accumulate r (str1 c)))) as rest eqn:Hrest.
      clear Hrest. subst r. rewrite string_app_assoc.
      rewrite (accumulate_app run (rest ++ w)), (accumulate_app run rest)
        by exact Hrun.
      destruct rest as [|a y].
      * change ("" ++ w) with w.
        rewrite accumulate_all by (apply blank_pad_no_reserved; exact Hw).
        simpl accumulate. simpl fst. simpl snd.
        change ((str1 c ++ run) ++ w) with ("" ++ (str1 c ++ run) ++ w).
        rewrite trimWS_pad by (reflexivity || apply blank_pad_ws; exact Hw).
        reflexivity.
      * simpl in Hb. change (String a y ++ w) with (String a (y ++ w)).
        simpl accumulate. rewrite Hb. simpl fst. simpl snd.
        change (String a (y ++ w)) with (String a y ++ w).
        rewrite IH; [reflexivity|].
        lia.
Qed.

(** X16: blanks (spaces, tabs and carriage returns) at the start of the
    text, on either side of a reserved character, and at the end of the text
    do not change the tokens. *)
Theorem tokenize_ignores_blanks_beside_reserved (w : string) :
  blank_pad w = true ->
  (forall y, tokenize (w ++ y) = tokenize y)
  /\ (forall x a y,
         reserved a = true ->
         tokenize (x ++ String a (w ++ y)) = tokenize (x ++ String a y))
  /\ (forall x y,
         at_boundary y = true ->
         tokenize (x ++ w ++ y) = tokenize (x ++ y)).
Proof.
  intros Hw. split; [|split].
  - intros y. apply tokenize_leading_blanks. exact Hw.
  - intros x a y Ha. rewrite !tokenize_reserved_middle by exact Ha.
    rewrite tokenize_leading_blanks by exact Hw. reflexivity.
  - intros x [|a y] Hb.
    + rewrite !string_app_empty_r. apply tokenize_trailing_blanks. exact Hw.
    + simpl in Hb. rewrite <- string_app_assoc.
      rewrite !tokenize_reserved_middle by exact Hb.
      rewrite tokenize_trailing_blanks by exact Hw. reflexivity.
Qed.

Lemma tokenize_ignores_blanks_beside_reserved_witness :
  (forall y, tokenize ((" " ++ String TAB "") ++ y) = tokenize y)
  /\ (forall x a y,
         reserved a = true ->
         tokenize (x ++ String a ((" " ++ String TAB "") ++ y))
         = tokenize (x ++ String a y))
  /\ (forall x y,
         at_boundary y = true ->
         tokenize (x ++ (" " ++ String TAB "") ++ y) = tokenize (x ++ y)).
Proof.
  apply (tokenize_ignores_blanks_beside_reserved (" " ++ String TAB "")).
  reflexivity.
Defined.

(** ** [getToken] *)

Lemma accumulate_eofbit cs t :
  snd (snd (accumulate cs t)) = String.eqb (fst (snd (accumulate cs t))) "".
Proof.
  revert t. induction cs as [|c r IH]; intros t; simpl; [reflexivity|].
  destruct (reserved c); [reflexivity|]. apply IH.
Qed.

(** X17: one call of [getToken] on a stream whose [eofbit] is clear takes a
    prefix of what is left and nothing else.  At the end of the input it takes
    nothing, returns the empty string and sets [eofbit].  When the next
    character is reserved it takes that character alone, returns it, and
    leaves [eofbit] clear even when it was the last one.  Otherwise it takes
    the characters up to the next reserved character or to the end, returns
    them trimmed, and sets [eofbit] exactly when nothing is left. *)
Theorem getToken_takes_a_prefix (cs : string) (f : bool) :
  let s := {| chars := cs; eofbit := false; failbit := f |} in
  exists raw,
    cs = raw ++ chars (snd (getToken s))
    /\ failbit (snd (getToken s)) = f
    /\ match raw with
       | EmptyString =>
           cs = "" /\ fst (getToken s) = "" /\ eofbit (snd (getToken s)) = true
       | String a r =>
           if reserved a then
             r = "" /\ fst (getToken s) = str1 a
             /\ eofbit (snd (getToken s)) = false
           else
             no_reserved raw = true
             /\ fst (getToken s) = trimWS raw
             /\ at_boundary (chars (snd (getToken s))) = true
             /\ eofbit (snd (getToken s))
                = String.eqb (chars (snd (getToken s))) ""
       end.
Proof.
  intros s. unfold s. clear s. destruct cs as [|c r].
  - exists "". rewrite getToken_at_end. simpl. auto.
  - destruct (reserved c) eqn:Hc.
    + exists (str1 c). rewrite getToken_reserved by exact Hc. simpl.
      rewrite Hc. auto.
    + destruct (accumulate_split r (str1 c)) as (run & H1 & H2 & Hrun & Hb).
      exists (String c run). rewrite getToken_run by exact Hc. simpl.
      rewrite Hc. repeat split.
      * change (String c run ++ fst (snd (accumulate r (str1 c))))
          with (String c (run ++ fst (snd (accumulate r (str1 c))))).
        rewrite <- H2. reflexivity.
      * unfold no_reserved in *. simpl. rewrite Hc, Hrun. reflexivity.
      * rewrite H1. reflexivity.
      * exact Hb.
      * apply accumulate_eofbit.
Qed.

(** ** The exceptions of [read] *)

Lemma parse_throws_syntax_error p e q :
  parse p = Throw e q -> exists msg, e = SyntaxError msg.
Proof.
  intros H. apply parse_throw_in_loop in H.
  pose proof (for_loop_line_number (List.length (tokens p)) 0 p initial_locals)
    as Hl.
  change (Z.of_nat 0) with 0%Z in Hl.
  specialize (Hl ltac:(simpl; lia) eq_refl). rewrite H in Hl.
  destruct Hl as (k & token & _ & _ & _ & ->). eexists. reflexivity.
Qed.

(** X18: as long as no read of the file fails, that is when the file cannot
    be opened or opens and is read to its end, [read] throws in three ways
    only, and never [EOFReached].  On an object whose stream has its
    [failbit] set it throws the failure of the stream library and changes
    nothing.  Otherwise, when the file cannot be opened it throws
    [FileNotFound], with the store and the token vector as they were and the
    [failbit] now set; and when the file is read to its end the only
    exception is a [SyntaxError], after which the token vector holds the old
    tokens and then those of the file, the [failbit] is clear, and no section
    or key has left the store.  A file that opens and then fails to be read
    is not covered: there the stream library throws its failure out of the
    loop of [read]. *)
Theorem read_exceptions_without_read_error
    (file : option string) (p : IniParser) (e : exn) (q : IniParser) :
  read file p = Throw e q ->
  e <> EOFReached
  /\ ((failbit (inp p) = true /\ e = ios_failure /\ q = p)
      \/ (failbit (inp p) = false /\ file = None /\ e = FileNotFound
          /\ internal q = internal p /\ tokens q = tokens p
          /\ failbit (inp q) = true)
      \/ (failbit (inp p) = false
          /\ exists content msg,
               file = Some content /\ e = SyntaxError msg
               /\ tokens q = (tokens p ++ tokenize content)%list
               /\ failbit (inp q) = false
               /\ keeps_keys (internal p) (internal q))).
Proof.
  intros H. destruct p as [m name [cs eb fb] ts]. destruct fb.
  - unfold read in H. simpl in H. injection H as <- <-.
    split; [discriminate|]. left. auto.
  - destruct file as [content|].
    + rewrite read_appends_tokens in H.
      destruct (parse_throws_syntax_error _ _ _ H) as [msg ->].
      split; [discriminate|]. right. right. split; [reflexivity|].
      exists content, msg.
      match type of H with parse ?p1 = _ => pose proof (parse_frame p1) as Hf end.
      rewrite H in Hf. simpl in Hf. destruct Hf as (Ht & _ & Hi & Hk).
      repeat split; try assumption.
      rewrite Hi, read_loop_final by discriminate. reflexivity.
    + unfold read in H. simpl in H. injection H as <- <-.
      split; [discriminate|]. right. left. repeat split.
Qed.

Lemma read_exceptions_without_read_error_witness :
  SyntaxError
    (message_text "config.ini" "2" nl "]" nl)
  <> EOFReached
  /\ ((failbit (inp (new_IniParser "config.ini")) = true
       /\ SyntaxError (message_text "config.ini" "2" nl "]" nl) = ios_failure
       /\ {| internal := {[ "" := {[ "k" := "v" ]} ]};
             fileName := "config.ini";
             inp := {| chars := ""; eofbit := true; failbit := false |};
             tokens := ["k"; "="; "v"; nl; "]"; nl] |}
          = new_IniParser "config.ini")
      \/ (failbit (inp (new_IniParser "config.ini")) = false
          /\ Some ("k=v" ++ nl ++ "]" ++ nl) = None
          /\ SyntaxError (message_text "config.ini" "2" nl "]" nl)
             = FileNotFound
          /\ internal
               {| internal := {[ "" := {[ "k" := "v" ]} ]};
                  fileName := "config.ini";
                  inp := {| chars := ""; eofbit := true; failbit := false |};
                  tokens := ["k"; "="; "v"; nl; "]"; nl] |}
             = internal (new_IniParser "config.ini")
          /\ tokens
               {| internal := {[ "" := {[ "k" := "v" ]} ]};
                  fileName := "config.ini";
                  inp := {| chars := ""; eofbit := true; failbit := false |};
                  tokens := ["k"; "="; "v"; nl; "]"; nl] |}
             = tokens (new_IniParser "config.ini")
          /\ failbit
               (inp {| internal := {[ "" := {[ "k" := "v" ]} ]};
                       fileName := "config.ini";
                       inp := {| chars := ""; eofbit := true;
                                 failbit := false |};
                       tokens := ["k"; "="; "v"; nl; "]"; nl] |})
             = true)
      \/ (failbit (inp (new_IniParser "config.ini")) = false
          /\ exists content msg,
               Some ("k=v" ++ nl ++ "]" ++ nl) = Some content
               /\ SyntaxError (message_text "config.ini" "2" nl "]" nl)
                  = SyntaxError msg
               /\ tokens
                    {| internal := {[ "" := {[ "k" := "v" ]} ]};
                       fileName := "config.ini";
                       inp := {| chars := ""; eofbit := true;
                                 failbit := false |};
                       tokens := ["k"; "="; "v"; nl; "]"; nl] |}
                  = (tokens (new_IniParser "config.ini")
                     ++ tokenize content)%list
               /\ failbit
                    (inp {| internal := {[ "" := {[ "k" := "v" ]} ]};
                            fileName := "config.ini";
                            inp := {| chars := ""; eofbit := true;
                                      failbit := false |};
                            tokens := ["k"; "="; "v"; nl; "]"; nl] |})
                  = false
               /\ keeps_keys (internal (new_IniParser "config.ini"))
                    (internal
                       {| internal := {[ "" := {[ "k" := "v" ]} ]};
                          fileName := "config.ini";
                          inp := {| chars := ""; eofbit := true;
                                    failbit := false |};
                          tokens := ["k"; "="; "v"; nl; "]"; nl] |}))).
Proof.
  apply (read_exceptions_without_read_error (Some ("k=v" ++ nl ++ "]" ++ nl))
           (new_IniParser "config.ini")).
  vm_compute. reflexivity.
Defined.

(** ** What no call undoes *)

Lemma read_tokens file p :
  match read file p with
  | Ret q | Throw _ q =>
      fileName q = fileName p /\ exists more, tokens q = (tokens p ++ more)%list
  | Undefined => True
  end.
Proof.
  destruct p as [m name [cs eb fb] ts]. destruct fb.
  - unfold read. simpl. split; [reflexivity|].
    exists []. rewrite app_nil_r. reflexivity.
  - destruct file as [content|].
    + rewrite read_appends_tokens.
      match goal with |- context [parse ?p1] => pose proof (parse_frame p1) as Hf end.
      destruct (parse _) as [q|e q|]; [| |exact I];
        destruct Hf as (Ht & Hn & _); simpl in Ht, Hn;
        (split; [exact Hn|]); exists (tokenize content); exact Ht.
    + unfold read. simpl. split; [reflexivity|].
      exists []. rewrite app_nil_r. reflexivity.
Qed.

Lemma after_call_tokens c p q :
  after_call c p = Some q ->
  fileName q = fileName p /\ exists more, tokens q = (tokens p ++ more)%list.
Proof.
  destruct c; simpl;
    try (intros [= <-]; simpl; split; [reflexivity|];
         exists []; rewrite app_nil_r; reflexivity).
  pose proof (read_tokens file p) as H.
  destruct (read file p) as [r|e r|]; [| |discriminate];
    intros [= <-]; exact H.
Qed.

(** X19: no call empties the token vector or changes the file name: after
    any sequence of calls of [read], [clear], [operator[]], lookups,
    assignments and [print], the token vector is the one from before the
    calls followed by what the calls of [read] have appended.  So every
    [read] but the first parses the tokens of the files read before it
    again. *)
Theorem calls_never_clear_the_tokens
    (cs : list call) (p q : IniParser) :
  after_calls cs p = Some q ->
  fileName q = fileName p /\ exists more, tokens q = (tokens p ++ more)%list.
Proof.
  revert p. induction cs as [|c cs IH]; intros p H.
  - injection H as <-. split; [reflexivity|].
    exists []. rewrite app_nil_r. reflexivity.
  - simpl in H. destruct (after_call c p) as [p1|] eqn:Hc; [|discriminate H].
    destruct (after_call_tokens c p p1 Hc) as (Hn1 & more1 & Ht1).
    destruct (IH p1 H) as (Hn & more & Ht).
    split; [congruence|]. exists (more1 ++ more)%list.
    rewrite Ht, Ht1, app_assoc. reflexivity.
Qed.

Lemma calls_never_clear_the_tokens_witness :
  fileName
    {| internal := {[ "" := {[ "a" := "b"; "c" := "d" ]} ]};
       fileName := "config.ini";
       inp := {| chars := ""; eofbit := true; failbit := false |};
       tokens := ["a"; "="; "b"; nl; "c"; "="; "d"; nl] |}
  = fileName (new_IniParser "config.ini")
  /\ exists more,
       tokens
         {| internal := {[ "" := {[ "a" := "b"; "c" := "d" ]} ]};
            fileName := "config.ini";
            inp := {| chars := ""; eofbit := true; failbit := false |};
            tokens := ["a"; "="; "b"; nl; "c"; "="; "d"; nl] |}
       = (tokens (new_IniParser "config.ini") ++ more)%list.
Proof.
  apply (calls_never_clear_the_tokens
           [call_read (Some ("a=b" ++ nl)); call_clear;
            call_read (Some ("c=d" ++ nl))]
           (new_IniParser "config.ini")).
  vm_compute. reflexivity.
Defined.
